(** * golopro: a shallow embedding of [lopro.go]

    The program tallies keys extracted from the records of delimited log
    files.  Workers own a [ReportManager] each; the master's manager keeps
    pointers to the clones it handed out and folds them back in [Reduce].

    Conventions of the embedding:
    - Go's [int] and [int64] are 64-bit two's complement integers: values
      are in [Z] and every addition the source performs is wrapped by
      [wrap64];
    - Go strings are byte strings: [string] (a list of [ascii]);
    - [map[string]int64] is [gmap string Z];
    - [*QuickReport] and [*ReportManager] are addresses into two stores
      kept in [World]; a store is a list, an address is an index, and
      allocation appends (Go never frees, so addresses stay valid);
    - a run-time panic is the result [Panic]. *)

From Stdlib Require Import ZArith Ascii String.
From stdpp Require Import gmap strings list fin_maps.

Local Open Scope Z_scope.

(** ** Machine integers *)

Definition wrap64 (z : Z) : Z := (z + 2 ^ 63) `mod` 2 ^ 64 - 2 ^ 63.

Definition int64_min : Z := - 2 ^ 63.
Definition int64_max : Z := 2 ^ 63 - 1.

(** ** Results of computations that may panic or loop *)

Inductive Res (A : Type) : Type :=
  | Ok (a : A)
  | Panic
  | OutOfFuel.
Arguments Ok {A} a.
Arguments Panic {A}.
Arguments OutOfFuel {A}.

Definition res_bind {A B} (r : Res A) (f : A -> Res B) : Res B :=
  match r with
  | Ok a => f a
  | Panic => Panic
  | OutOfFuel => OutOfFuel
  end.

(** ** Records and errors *)

(** [type LogRecord interface{}]: the only dynamic type the bundled report
    inspects is [[]string]; every other value (the nil interface included)
    is [RecOther].  A nil [[]string] is [RecStrings []]. *)
Inductive LogRecord : Type :=
  | RecStrings (r : list string)
  | RecOther.

(** Go [error] values: [io.EOF] and everything else. *)
Inductive error : Type :=
  | EOF
  | Err (msg : string).

Definition is_EOF (e : error) : bool :=
  match e with EOF => true | Err _ => false end.

(** ** DefaultReport and QuickReport *)

(** [m[k]] on a Go map: the zero value when the key is absent. *)
Definition count (m : gmap string Z) (k : string) : Z := default 0 (m !! k).

(** [m[k] += v] *)
Definition bump (k : string) (v : Z) (m : gmap string Z) : gmap string Z :=
  <[k := wrap64 (count m k + v)]> m.

(** [type QuickReport struct { DefaultReport; keys []int }], with the
    embedded [DefaultReport]'s [result] field inlined. *)
Record QuickReport : Type := mkQuickReport {
  result : gmap string Z;
  keys : list Z
}.

(** [func (r *DefaultReport) Merge(nr *DefaultReport)]: ranges over
    [nr.result] and adds each value into [r.result].  The range visits
    every entry of [nr.result] once, in an order Go leaves unspecified;
    [map_fold] fixes one, and [lookup_Merge] below shows that the result
    does not depend on it. *)
Definition DefaultReport_Merge (r nr : gmap string Z) : gmap string Z :=
  map_fold (fun k v acc => bump k v acc) r nr.

(** [func (r *DefaultReport) Clear()] *)
Definition DefaultReport_Clear (r : gmap string Z) : gmap string Z := ∅.

Definition NewQuickReport (ks : list Z) : QuickReport :=
  {| result := ∅; keys := ks |}.

(** [func (qr *QuickReport) New() Report] *)
Definition QuickReport_New (qr : QuickReport) : QuickReport :=
  NewQuickReport (keys qr).

(** [func (qr *QuickReport) Merge(rpt Report)] *)
Definition QuickReport_Merge (qr rpt : QuickReport) : QuickReport :=
  {| result := DefaultReport_Merge (result qr) (result rpt); keys := keys qr |}.

(** [Clear], promoted from the embedded [DefaultReport]. *)
Definition QuickReport_Clear (qr : QuickReport) : QuickReport :=
  {| result := DefaultReport_Clear (result qr); keys := keys qr |}.

Definition QuickReport_Name : string := "quick".

(** [r[k]] on a slice: panics outside [0 <= k < len(r)]. *)
Definition index (r : list string) (k : Z) : Res string :=
  if k <? 0 then Panic
  else match r !! Z.to_nat k with
       | Some f => Ok f
       | None => Panic
       end.

(** The key loop of [QuickReport.Add]; [i] is the range index. *)
Fixpoint build_key (r : list string) (i : nat) (ks : list Z) (key : string)
  : Res string :=
  match ks with
  | [] => Ok key
  | k :: ks' =>
      let key := if (0 <? i)%nat then key +:+ "," else key in
      if Z.of_nat (length r) <=? k
      then build_key r (S i) ks' key
      else res_bind (index r k) (fun f => build_key r (S i) ks' (key +:+ f))
  end.

(** [func (qr *QuickReport) Add(rec LogRecord)] *)
Definition QuickReport_Add (qr : QuickReport) (rec : LogRecord)
  : Res QuickReport :=
  match rec with
  | RecOther => Ok qr
  | RecStrings r =>
      res_bind (build_key r 0 (keys qr) "")
        (fun key => Ok {| result := bump key 1 (result qr); keys := keys qr |})
  end.

(** Feeding a sequence of records to one report. *)
Fixpoint add_all (qr : QuickReport) (recs : list LogRecord) : Res QuickReport :=
  match recs with
  | [] => Ok qr
  | rec :: recs' => res_bind (QuickReport_Add qr rec) (fun qr' => add_all qr' recs')
  end.

(** ** The world: report store, manager store, log and written files *)

Abbreviation loc := nat.

(** [type ReportManager struct { reports []Report; references []*ReportManager }] *)
Record ReportManager : Type := mkReportManager {
  reports : list loc;
  references : list loc
}.

(** [type WorkerStats struct { files, bytes, bytesCompressed, records int64 }] *)
Record WorkerStats : Type := mkWorkerStats {
  files : Z;
  bytes : Z;
  bytesCompressed : Z;
  records : Z
}.

(** The lines written through [log.Printf], by call site. *)
Inductive LogEntry : Type :=
  | LogProcessing (id : Z) (file : string)            (* line 145 *)
  | LogParseFailed (file : string) (e : error)        (* line 179 *)
  | LogProcessFailed (file : string) (e : error)      (* line 119 *)
  | LogFileCount (n : nat)                            (* line 274 *)
  | LogProgress (i n : nat) (file : string)           (* line 311 *)
  | LogWorker (id : Z) (s : WorkerStats)              (* line 323 *)
  | LogTotal (s : WorkerStats).                       (* line 331 *)

Record World : Type := mkWorld {
  w_reports : list QuickReport;
  w_mgrs : list ReportManager;
  w_log : list LogEntry;
  w_out : list (string * gmap string Z)
}.

Definition empty_world : World :=
  {| w_reports := []; w_mgrs := []; w_log := []; w_out := [] |}.

(** State-and-panic monad over [World]. *)
Definition M (A : Type) : Type := World -> Res (A * World).

Definition ret {A} (a : A) : M A := fun w => Ok (a, w).

Definition bind {A B} (m : M A) (f : A -> M B) : M B :=
  fun w => match m w with
           | Ok (a, w') => f a w'
           | Panic => Panic
           | OutOfFuel => OutOfFuel
           end.

Definition panic {A} : M A := fun _ => Panic.
Definition out_of_fuel {A} : M A := fun _ => OutOfFuel.

Definition lift {A} (r : Res A) : M A :=
  fun w => match r with
           | Ok a => Ok (a, w)
           | Panic => Panic
           | OutOfFuel => OutOfFuel
           end.

Declare Scope go_scope.
Delimit Scope go_scope with go.
Notation "x <- e ;; k" := (bind e (fun x => k))
  (at level 100, e at next level, right associativity) : go_scope.
Notation "e ;; k" := (bind e (fun _ => k))
  (at level 100, right associativity) : go_scope.
Local Open Scope go_scope.

Definition set_reports (w : World) (h : list QuickReport) : World :=
  {| w_reports := h; w_mgrs := w_mgrs w; w_log := w_log w; w_out := w_out w |}.

Definition set_mgrs (w : World) (ms : list ReportManager) : World :=
  {| w_reports := w_reports w; w_mgrs := ms; w_log := w_log w; w_out := w_out w |}.

(** Dereferencing a report or manager that does not exist (a nil
    pointer) panics; allocation returns the next free address. *)
Definition load_report (r : loc) : M QuickReport :=
  fun w => match w_reports w !! r with
           | Some qr => Ok (qr, w)
           | None => Panic
           end.

Definition store_report (r : loc) (qr : QuickReport) : M unit :=
  fun w => Ok (tt, set_reports w (<[r := qr]> (w_reports w))).

Definition alloc_report (qr : QuickReport) : M loc :=
  fun w => Ok (length (w_reports w), set_reports w (w_reports w ++ [qr])).

Definition load_mgr (rm : loc) : M ReportManager :=
  fun w => match w_mgrs w !! rm with
           | Some m => Ok (m, w)
           | None => Panic
           end.

Definition store_mgr (rm : loc) (m : ReportManager) : M unit :=
  fun w => Ok (tt, set_mgrs w (<[rm := m]> (w_mgrs w))).

Definition alloc_mgr (m : ReportManager) : M loc :=
  fun w => Ok (length (w_mgrs w), set_mgrs w (w_mgrs w ++ [m])).

Definition log_Printf (e : LogEntry) : M unit :=
  fun w => Ok (tt, {| w_reports := w_reports w; w_mgrs := w_mgrs w;
                      w_log := w_log w ++ [e]; w_out := w_out w |}).

Definition write_file (path : string) (content : gmap string Z) : M unit :=
  fun w => Ok (tt, {| w_reports := w_reports w; w_mgrs := w_mgrs w;
                      w_log := w_log w; w_out := w_out w ++ [(path, content)] |}).

(** [for i, x := range l { body }] *)
Fixpoint for_range {A} (i : nat) (l : list A) (body : nat -> A -> M unit) : M unit :=
  match l with
  | [] => ret tt
  | x :: l' => body i x ;; for_range (S i) l' body
  end.

(** ** The Report interface, dispatched on a [*QuickReport] *)

(** [r.New()]: the fresh report is a new object. *)
Definition Report_New (r : loc) : M loc :=
  qr <- load_report r ;;
  alloc_report (QuickReport_New qr).

(** [r.Merge(rpt)]: updates the object [r] points to. *)
Definition Report_Merge (r rpt : loc) : M unit :=
  nqr <- load_report rpt ;;
  qr <- load_report r ;;
  store_report r (QuickReport_Merge qr nqr).

(** [r.Clear()] *)
Definition Report_Clear (r : loc) : M unit :=
  qr <- load_report r ;;
  store_report r (QuickReport_Clear qr).

Definition Report_Add (r : loc) (rec : LogRecord) : M unit :=
  qr <- load_report r ;;
  qr' <- lift (QuickReport_Add qr rec) ;;
  store_report r qr'.

(** [func (r *DefaultReport) Output(path string)]: one line [key,count] per
    entry, in unspecified order; the written file is recorded as the map. *)
Definition Report_Output (r : loc) (path : string) : M unit :=
  qr <- load_report r ;;
  write_file path (result qr).

(** ** ReportManager *)

Definition NewReportManager : M loc :=
  alloc_mgr {| reports := []; references := [] |}.

(** The loop of [Clone]: [nrm.reports[i] = r.New()] for every [r]. *)
Fixpoint new_reports (rs : list loc) : M (list loc) :=
  match rs with
  | [] => ret []
  | r :: rs' =>
      n <- Report_New r ;;
      ns <- new_reports rs' ;;
      ret (n :: ns)
  end.

(** [func (rm *ReportManager) Clone() *ReportManager].  The source
    allocates the new manager before filling its slice; here the slice is
    built first, which no caller can tell apart. *)
Definition Clone (rm : loc) : M loc :=
  m <- load_mgr rm ;;
  nrs <- new_reports (reports m) ;;
  nrm <- alloc_mgr {| reports := nrs; references := [] |} ;;
  m' <- load_mgr rm ;;
  store_mgr rm {| reports := reports m'; references := references m' ++ [nrm] |} ;;
  ret nrm.

(** [nrm.reports[i]] *)
Definition mgr_report (nrm : loc) (i : nat) : M loc :=
  n <- load_mgr nrm ;;
  match reports n !! i with
  | Some x => ret x
  | None => panic
  end.

(** Lines 53-54, the body of the inner loop of [Reduce]. *)
Definition merge_and_clear (i : nat) (r nrm : loc) : M unit :=
  x <- mgr_report nrm i ;;
  Report_Merge r x ;;
  y <- mgr_report nrm i ;;
  Report_Clear y.

(** Lines 52-55, the inner loop; [rm.references] is read when it starts. *)
Definition merge_references (rm : loc) (i : nat) (r : loc) : M unit :=
  m <- load_mgr rm ;;
  for_range 0 (references m) (fun _ nrm => merge_and_clear i r nrm).

(** [func (rm *ReportManager) Reduce()] *)
Definition Reduce (rm : loc) : M unit :=
  m <- load_mgr rm ;;
  for_range 0 (reports m) (fun i r => merge_references rm i r).

(** [func (rm *ReportManager) Output(dir string)] *)
Definition Output (rm : loc) (dir : string) : M unit :=
  m <- load_mgr rm ;;
  for_range 0 (reports m) (fun _ r =>
    Report_Output r (dir +:+ "/result-" +:+ QuickReport_Name +:+ ".txt")).

(** [func (rm *ReportManager) RegisterReport(rpt Report)] *)
Definition RegisterReport (rm rpt : loc) : M unit :=
  m <- load_mgr rm ;;
  store_mgr rm {| reports := reports m ++ [rpt]; references := references m |}.

(** [func (rm *ReportManager) ProcessRecord(rec LogRecord)] *)
Definition ProcessRecord (rm : loc) (rec : LogRecord) : M unit :=
  m <- load_mgr rm ;;
  for_range 0 (reports m) (fun _ report => Report_Add report rec).

(** ** WorkerStats *)

Definition zero_stats : WorkerStats :=
  {| files := 0; bytes := 0; bytesCompressed := 0; records := 0 |}.

(** [func (s *WorkerStats) Merge(ws *WorkerStats)] *)
Definition WorkerStats_Merge (s ws : WorkerStats) : WorkerStats :=
  {| files := wrap64 (files s + files ws);
     bytes := wrap64 (bytes s + bytes ws);
     bytesCompressed := wrap64 (bytesCompressed s + bytesCompressed ws);
     records := wrap64 (records s + records ws) |}.

(** ** Files and readers *)

(** What [encoding/csv]'s [Reader.Read] returns: a record and an error. *)
Definition ReadResult : Type := (list string * option error)%type.

(** An [io.Reader] is represented by the finite sequence of results that
    [csv.Reader.Read] yields on it; once they are used up, [Read] returns
    [(nil, io.EOF)] for ever.  The decoding itself ([encoding/csv]) is
    library code and is not modelled. *)
Definition Reader : Type := list ReadResult.

Record FileInfo : Type := mkFileInfo {
  fi_Name : string;
  fi_IsDir : bool;
  fi_Size : Z
}.

(** The operating-system and library calls [main] and [Process] make. *)
Record FileSystem : Type := mkFileSystem {
  os_Stat : string -> error + FileInfo;
  os_Open : string -> error + Reader;
  gzip_NewReader : Reader -> error + Reader;
  bzip2_NewReader : Reader -> Reader;
  ioutil_ReadDir : string -> list FileInfo
}.

(** [strings.HasSuffix(s, suffix)] *)
Definition HasSuffix (s suffix : string) : bool :=
  let n := String.length s in
  let k := String.length suffix in
  (k <=? n)%nat && String.eqb (String.substring (n - k) k s) suffix.

(** ** Parser *)

(** [type Parser interface { Clone(); Reset(io.Reader); NextRecord() }] *)
Class Parser (P : Type) : Type := {
  Parser_Clone : P -> P;
  Parser_Reset : P -> Reader -> P;
  Parser_NextRecord : P -> Res ((Z * LogRecord * option error) * P)
}.

(** [type CSVParser struct { comma byte; reader *csv.Reader }]; a
    [csv.Reader] is the list of results it has still to return. *)
Record CSVParser : Type := mkCSVParser {
  comma : ascii;
  reader : option Reader
}.

Definition NewCSVParser (c : ascii) : CSVParser :=
  {| comma := c; reader := None |}.

Definition CSVParser_Reset (lp : CSVParser) (r : Reader) : CSVParser :=
  {| comma := comma lp; reader := Some r |}.

Definition CSVParser_Clone (lp : CSVParser) : CSVParser := NewCSVParser (comma lp).

(** [csv.Reader.Read] *)
Definition csv_Read (rd : Reader) : ReadResult * Reader :=
  match rd with
  | [] => (([], Some EOF), [])
  | res :: rd' => (res, rd')
  end.

(** [func (lp *CSVParser) NextRecord() (int, interface{}, error)]:
    [r, err := lp.reader.Read(); return 0, r, err].  A nil [reader] (no
    [Reset] yet) panics. *)
Definition CSVParser_NextRecord (lp : CSVParser)
  : Res ((Z * LogRecord * option error) * CSVParser) :=
  match reader lp with
  | None => Panic
  | Some rd =>
      let '((r, err), rd') := csv_Read rd in
      Ok ((0, RecStrings r, err), {| comma := comma lp; reader := Some rd' |})
  end.

#[export] Instance CSVParser_Parser : Parser CSVParser := {|
  Parser_Clone := CSVParser_Clone;
  Parser_Reset := CSVParser_Reset;
  Parser_NextRecord := CSVParser_NextRecord
|}.

(** ** Worker *)

(** [type Worker struct]; the two channels are not fields of the model:
    [Worker_Run] takes the sequence of values received on [tasks]. *)
Record Worker (P : Type) : Type := mkWorker {
  id : Z;
  stats : WorkerStats;
  reportMgr : loc;
  parser : P
}.
Arguments mkWorker {P}.
Arguments id {P}.
Arguments stats {P}.
Arguments reportMgr {P}.
Arguments parser {P}.

Definition NewWorker {P} (i : Z) (rm : loc) (p : P) : Worker P :=
  {| id := i; stats := zero_stats; reportMgr := rm; parser := p |}.

Section Worker.
Context {P : Type} `{Parser P}.
Variable fs : FileSystem.

Definition set_parser (w : Worker P) (p : P) : Worker P :=
  {| id := id w; stats := stats w; reportMgr := reportMgr w; parser := p |}.

Definition set_stats (w : Worker P) (s : WorkerStats) : Worker P :=
  {| id := id w; stats := s; reportMgr := reportMgr w; parser := parser w |}.

(** Lines 185-187: the tail of one iteration of the record loop. *)
Definition count_record (w : Worker P) (nbytes : Z) (rec : LogRecord) : M (Worker P) :=
  ProcessRecord (reportMgr w) rec ;;
  ret (set_stats w {| files := files (stats w);
                      bytes := wrap64 (bytes (stats w) + nbytes);
                      bytesCompressed := bytesCompressed (stats w);
                      records := wrap64 (records (stats w) + 1) |}).

(** Lines 175-188: the record loop of [Process].  [fuel] bounds the
    number of iterations. *)
Fixpoint record_loop (fuel : nat) (file : string) (w : Worker P) : M (Worker P) :=
  match fuel with
  | O => out_of_fuel
  | S fuel' =>
      match Parser_NextRecord (parser w) with
      | Ok ((nbytes, rec, err), p') =>
          let w := set_parser w p' in
          match err with
          | Some e =>
              if is_EOF e then ret w
              else
                log_Printf (LogParseFailed file e) ;;
                w' <- count_record w nbytes rec ;;
                record_loop fuel' file w'
          | None =>
              w' <- count_record w nbytes rec ;;
              record_loop fuel' file w'
          end
      | Panic => panic
      | OutOfFuel => out_of_fuel
      end
  end.

(** Lines 158-170: the choice of the decoding reader. *)
Definition select_reader (file : string) (fp : Reader) : error + Reader :=
  if HasSuffix file ".gz" then gzip_NewReader fs fp
  else if HasSuffix file ".bz2" then inr (bzip2_NewReader fs fp)
  else inr fp.

(** [func (w *Worker) Process(file string) error] *)
Definition Worker_Process (fuel : nat) (w : Worker P) (file : string)
  : M (option error * Worker P) :=
  log_Printf (LogProcessing (id w) file) ;;
  match os_Stat fs file with
  | inl err => ret (Some err, w)
  | inr fi =>
      match os_Open fs file with
      | inl err => ret (Some err, w)
      | inr fp =>
          match select_reader file fp with
          | inl err => ret (Some err, w)
          | inr zfp =>
              let w := set_parser w (Parser_Reset (parser w) zfp) in
              w' <- record_loop fuel file w ;;
              ret (None,
                   set_stats w'
                     {| files := wrap64 (files (stats w') + 1);
                        bytes := bytes (stats w');
                        bytesCompressed :=
                          wrap64 (bytesCompressed (stats w') + fi_Size fi);
                        records := records (stats w') |})
          end
      end
  end.

(** [func (w *Worker) Run()], over the values the worker receives on
    [tasks].  The boolean tells whether the worker saw the sentinel and
    acknowledged on [exit]; with no sentinel it stays blocked on the
    channel. *)
Fixpoint Worker_Run (fuel : nat) (w : Worker P) (tasks : list string)
  : M (bool * Worker P) :=
  match tasks with
  | [] => ret (false, w)
  | file :: tasks' =>
      if String.eqb file "" then ret (true, w)
      else
        r <- Worker_Process fuel w file ;;
        match fst r with
        | Some err => log_Printf (LogProcessFailed file err)
        | None => ret tt
        end ;;
        Worker_Run fuel (snd r) tasks'
  end.
End Worker.

(** ** Command line *)

Record Flags : Type := mkFlags {
  flag_in : string;
  flag_out : string;
  flag_procs : Z;
  flag_comma : string;
  flag_keys : string
}.

(** [strings.Split(s, sep)] for a one-byte separator: the [n+1] pieces
    around the [n] occurrences of [sep]. *)
Fixpoint Split (s : string) (sep : ascii) : list string :=
  match s with
  | EmptyString => [EmptyString]
  | String c s' =>
      if Ascii.eqb c sep then EmptyString :: Split s' sep
      else match Split s' sep with
           | piece :: pieces => String c piece :: pieces
           | [] => [String c EmptyString]
           end
  end.

Definition digit (c : ascii) : option Z :=
  let n := Z.of_nat (nat_of_ascii c) in
  if (48 <=? n) && (n <=? 57) then Some (n - 48) else None.

Fixpoint digits (s : string) (acc : Z) : option Z :=
  match s with
  | EmptyString => Some acc
  | String c s' =>
      match digit c with
      | Some d => digits s' (acc * 10 + d)
      | None => None
      end
  end.

(** [strconv.Atoi]: an optional sign and at least one decimal digit, with
    a value that fits [int]; [None] stands for a non-nil error. *)
Definition Atoi (s : string) : option Z :=
  let '(neg, body) :=
    match s with
    | String "-"%char s' => (true, s')
    | String "+"%char s' => (false, s')
    | _ => (false, s)
    end in
  match body with
  | EmptyString => None
  | _ =>
      match digits body 0 with
      | Some n =>
          let v := if neg then - n else n in
          if (int64_min <=? v) && (v <=? int64_max) then Some v else None
      | None => None
      end
  end.

(** Lines 276-283: entries [Atoi] rejects are skipped. *)
Fixpoint keep_ints (pieces : list string) : list Z :=
  match pieces with
  | [] => []
  | s :: pieces' =>
      match Atoi s with
      | Some i => i :: keep_ints pieces'
      | None => keep_ints pieces'
      end
  end.

Definition parse_keys (ks : string) : list Z := keep_ints (Split ks ","%char).

(** Line 288: [NewCSVParser(( *comma)[0])]; indexing the empty string panics. *)
Definition make_parser (sep : string) : Res CSVParser :=
  match sep with
  | EmptyString => Panic
  | String c _ => Ok (NewCSVParser c)
  end.

(** ** main *)

(** Lines 289-291: the master manager with its one [QuickReport]. *)
Definition setup (ks : list Z) : M loc :=
  reportMgr <- NewReportManager ;;
  rpt <- alloc_report (NewQuickReport ks) ;;
  RegisterReport reportMgr rpt ;;
  ret reportMgr.

(** How [main] ends when it does not panic. *)
Inductive Exit : Type :=
  | ExitStatFailed                                   (* line 259 *)
  | ExitNoKeys                                       (* line 285 *)
  | ExitDone (workers : list (Worker CSVParser)) (total : WorkerStats).

(** Lines 262-272. *)
Definition list_files (fs : FileSystem) (dir : string) (fi : FileInfo) : list string :=
  if fi_IsDir fi
  then (fun e => dir +:+ "/" +:+ fi_Name e) <$>
         filter (fun e => fi_IsDir e = false) (ioutil_ReadDir fs dir)
  else [dir].

(** Lines 300-303: worker 0 takes the master manager and parser, every
    other worker a clone of each. *)
Fixpoint clone_workers (reportMgr : loc) (p : CSVParser) (i : Z) (n : nat)
  : M (list (Worker CSVParser)) :=
  match n with
  | O => ret []
  | S n' =>
      nrm <- Clone reportMgr ;;
      ws <- clone_workers reportMgr p (i + 1) n' ;;
      ret (NewWorker i nrm (Parser_Clone p) :: ws)
  end.

(** Lines 309-313. *)
Fixpoint log_progress (i n : nat) (fls : list string) : M unit :=
  match fls with
  | [] => ret tt
  | file :: fls' => log_Printf (LogProgress i n file) ;; log_progress (S i) n fls'
  end.

(** The files worker [j] of [n] receives when file number [i] is taken
    from the queue by worker [assign i mod n], followed by its sentinel. *)
Fixpoint tasks_for (assign : nat -> nat) (n j i : nat) (fls : list string) : list string :=
  match fls with
  | [] => [EmptyString]
  | file :: fls' =>
      if Nat.eqb (assign i `mod` n)%nat j
      then file :: tasks_for assign n j (S i) fls'
      else tasks_for assign n j (S i) fls'
  end.

(** Lines 305-319: every worker runs to its sentinel.  Workers share no
    report, manager or parser while they run, so the model runs them one
    after the other. *)
Fixpoint run_workers (fs : FileSystem) (fuel : nat) (assign : nat -> nat)
    (n j : nat) (fls : list string) (ws : list (Worker CSVParser))
  : M (list (Worker CSVParser)) :=
  match ws with
  | [] => ret []
  | w :: ws' =>
      r <- Worker_Run fs fuel w (tasks_for assign n j 0 fls) ;;
      rest <- run_workers fs fuel assign n (S j) fls ws' ;;
      ret (snd r :: rest)
  end.

(** Lines 321-328. *)
Fixpoint merge_stats (j : nat) (master : WorkerStats) (ws : list (Worker CSVParser))
  : M WorkerStats :=
  match ws with
  | [] => ret master
  | w :: ws' =>
      log_Printf (LogWorker (id w) (stats w)) ;;
      merge_stats (S j)
        (if Nat.eqb j 0 then master else WorkerStats_Merge master (stats w)) ws'
  end.

(** [func main()].  [assign] resolves which worker dequeues which file. *)
Definition main (fs : FileSystem) (fl : Flags) (assign : nat -> nat) (fuel : nat)
  : M Exit :=
  match os_Stat fs (flag_in fl) with
  | inl _ => ret ExitStatFailed
  | inr fi =>
      let fls := list_files fs (flag_in fl) fi in
      log_Printf (LogFileCount (length fls)) ;;
      let ks := parse_keys (flag_keys fl) in
      if bool_decide (length ks = 0%nat) then ret ExitNoKeys
      else
        p <- lift (make_parser (flag_comma fl)) ;;
        reportMgr <- setup ks ;;
        let nworkers := flag_procs fl in
        (* make([]*Worker, nworkers) and workers[0] = ... *)
        if nworkers <=? 0 then panic
        else
          clones <- clone_workers reportMgr p 1 (Z.to_nat (nworkers - 1)) ;;
          let workers := NewWorker 0 reportMgr p :: clones in
          log_progress 0 (length fls) fls ;;
          workers' <- run_workers fs fuel assign (Z.to_nat nworkers) 0 fls workers ;;
          total <- merge_stats 0
                     (match workers' with w :: _ => stats w | [] => zero_stats end)
                     workers' ;;
          Reduce reportMgr ;;
          log_Printf (LogTotal total) ;;
          Output reportMgr (flag_out fl) ;;
          ret (ExitDone workers' total)
  end.

(** ** Auxiliary definitions used by the statements *)

(** Folding the clones' reports into the master's, one [Merge] each. *)
Definition merge_clones (master : QuickReport) (clones : list QuickReport)
  : QuickReport :=
  foldl QuickReport_Merge master clones.

(** Field [k] of a record, empty when the record is too short. *)
Definition field (r : list string) (k : Z) : string :=
  default EmptyString (r !! Z.to_nat k).

(** The key as the specification words it: the selected fields joined
    with a comma. *)
Definition join_fields (r : list string) (ks : list Z) : string :=
  String.concat "," (field r <$> ks).

(** A file system in which every path is a ten-byte regular file with
    the given decoded content, for the concrete runs below. *)
Definition sample_fs (content : Reader) : FileSystem :=
  {| os_Stat := fun f => inr {| fi_Name := f; fi_IsDir := false; fi_Size := 10 |};
     os_Open := fun _ => inr content;
     gzip_NewReader := fun r => inr r;
     bzip2_NewReader := fun r => r;
     ioutil_ReadDir := fun _ => [] |}.

(** A file system with no readable path. *)
Definition no_fs : FileSystem :=
  {| os_Stat := fun _ => inl (Err "no such file or directory");
     os_Open := fun _ => inl (Err "no such file or directory");
     gzip_NewReader := fun r => inr r;
     bzip2_NewReader := fun r => r;
     ioutil_ReadDir := fun _ => [] |}.

(** Three rows, the second of which [encoding/csv] fails to decode. *)
Definition one_bad_row : Reader :=
  [(["a"], None); ([], Some (Err "parse error")); (["b"], None)].

Definition sample_flags (sep ks : string) : Flags :=
  {| flag_in := "log.csv"; flag_out := "out"; flag_procs := 2;
     flag_comma := sep; flag_keys := ks |}.

Definition add_log (e : list LogEntry) (w : World) : World :=
  {| w_reports := w_reports w; w_mgrs := w_mgrs w;
     w_log := w_log w ++ e; w_out := w_out w |}.

(** [Process] fails before it touches the parser: at [os.Stat], at
    [os.Open], or at [gzip.NewReader] for a [.gz] name. *)
Definition file_fails (fs : FileSystem) (file : string) (err : error) : Prop :=
  os_Stat fs file = inl err
  \/ (exists fi, os_Stat fs file = inr fi /\ os_Open fs file = inl err)
  \/ (exists fi fp, os_Stat fs file = inr fi /\ os_Open fs file = inr fp
                    /\ HasSuffix file ".gz" = true
                    /\ gzip_NewReader fs fp = inl err).


(** The stores as lines 289-291 leave them: one manager, one empty report. *)
Definition one_report_world : World :=
  {| w_reports := [NewQuickReport [0]];
     w_mgrs := [ {| reports := [0%nat]; references := [] |} ];
     w_log := []; w_out := [] |}.

(** The reports [Clone] allocates for the reports [rs] of the source. *)
Definition fresh_reports (h : list QuickReport) (rs : list loc) : list QuickReport :=
  (fun r => NewQuickReport (from_option keys [] (h !! r))) <$> rs.

(** The report at [x] exists and holds no entry. *)
Definition empty_at (w : World) (x : loc) : Prop :=
  exists qr, w_reports w !! x = Some qr /\ result qr = ∅.

(** Report number [i] of the manager at [nrm] is the object at [x]. *)
Definition slot (ms : list ReportManager) (nrm : loc) (i : nat) (x : loc) : Prop :=
  exists n, ms !! nrm = Some n /\ reports n !! i = Some x.

(** The shape [Reduce] relies on: the master's reports are live objects,
    and every manager it references has, for each of the master's
    positions, a live report that is not one of the master's own. *)
Definition reduce_ready (w : World) (rm : loc) : Prop :=
  exists m,
    w_mgrs w !! rm = Some m
    /\ Forall (fun r => (r < length (w_reports w))%nat) (reports m)
    /\ Forall (fun nrm =>
         forall i, (i < length (reports m))%nat ->
           exists x, slot (w_mgrs w) nrm i x
                     /\ (x < length (w_reports w))%nat
                     /\ x ∉ reports m)
         (references m).

(** [Reduce] leaves the managers [ms] and the number [hl] of reports as
    they are. *)
Definition stores_like (ms : list ReportManager) (hl : nat) (world : World) : Prop :=
  w_mgrs world = ms /\ length (w_reports world) = hl.

(** A master with one report and two clones that have counted. *)
Definition three_workers_world : World :=
  {| w_reports := [ {| result := {[ "a" := 2 ]}; keys := [0] |};
                    {| result := {[ "a" := 1; "b" := 3 ]}; keys := [0] |};
                    {| result := {[ "b" := 4 ]}; keys := [0] |} ];
     w_mgrs := [ {| reports := [0%nat]; references := [1%nat; 2%nat] |};
                 {| reports := [1%nat]; references := [] |};
                 {| reports := [2%nat]; references := [] |} ];
     w_log := []; w_out := [] |}.

(** A computation that never runs out of fuel: it returns or panics. *)
Definition fuel_free {A} (m : M A) : Prop := forall w, m w <> OutOfFuel.

(** [fuel] exceeds the number of rows of every stream [Process] can get. *)
Definition enough_fuel (fs : FileSystem) (fuel : nat) : Prop :=
  forall file fp zfp,
    os_Open fs file = inr fp -> select_reader fs file fp = inr zfp ->
    (length zfp < fuel)%nat.

(** Values stored in a Go [map[string]int64] are 64-bit integers. *)
Definition int64_map (m : gmap string Z) : Prop :=
  map_Forall (fun _ v => int64_min <= v <= int64_max) m.

(** * Properties *)

(** ** Arithmetic of [wrap64] *)

Lemma wrap64_range z : int64_min <= wrap64 z <= int64_max.
Proof.
  unfold wrap64, int64_min, int64_max.
  pose proof (Z.mod_pos_bound (z + 2 ^ 63) (2 ^ 64)). lia.
Qed.

Lemma wrap64_id z : int64_min <= z <= int64_max -> wrap64 z = z.
Proof.
  unfold wrap64, int64_min, int64_max. intros Hz.
  rewrite Z.mod_small by lia. lia.
Qed.

Lemma wrap64_add_l a b : wrap64 (wrap64 a + b) = wrap64 (a + b).
Proof.
  unfold wrap64. f_equal.
  replace ((a + 2 ^ 63) `mod` 2 ^ 64 - 2 ^ 63 + b + 2 ^ 63)
    with ((a + 2 ^ 63) `mod` 2 ^ 64 + b) by lia.
  rewrite Zplus_mod_idemp_l. f_equal. lia.
Qed.

Lemma wrap64_add_r a b : wrap64 (a + wrap64 b) = wrap64 (a + b).
Proof. rewrite (Z.add_comm a), wrap64_add_l. f_equal. lia. Qed.

(** ** Lookups in bumped and merged tallies *)

Lemma count_Some (m : gmap string Z) k v : m !! k = Some v -> count m k = v.
Proof. unfold count. by intros ->. Qed.

Lemma count_None (m : gmap string Z) k : m !! k = None -> count m k = 0.
Proof. unfold count. by intros ->. Qed.

Lemma lookup_bump k v (m : gmap string Z) k' :
  bump k v m !! k' = if decide (k = k') then Some (wrap64 (count m k + v)) else m !! k'.
Proof. unfold bump. apply lookup_insert. Qed.

Lemma count_bump k v (m : gmap string Z) k' :
  count (bump k v m) k' = if decide (k = k') then wrap64 (count m k + v) else count m k'.
Proof. unfold count at 1. rewrite lookup_bump. by case_decide. Qed.

Lemma bump_comm k1 v1 k2 v2 (m : gmap string Z) :
  bump k1 v1 (bump k2 v2 m) = bump k2 v2 (bump k1 v1 m).
Proof.
  apply map_eq. intros k. rewrite !lookup_bump, !count_bump.
  repeat case_decide; simplify_eq; try done.
  rewrite !wrap64_add_l. f_equal. f_equal. lia.
Qed.

Lemma lookup_Merge (r nr : gmap string Z) k :
  DefaultReport_Merge r nr !! k =
    match nr !! k with
    | Some v => Some (wrap64 (count r k + v))
    | None => r !! k
    end.
Proof.
  unfold DefaultReport_Merge.
  apply (map_fold_weak_ind
           (fun acc nr' => acc !! k = match nr' !! k with
                                      | Some v => Some (wrap64 (count r k + v))
                                      | None => r !! k
                                      end)).
  - by rewrite lookup_empty.
  - intros i x m acc Hi IH. rewrite lookup_bump, lookup_insert.
    case_decide; simplify_eq; [|done].
    rewrite Hi in IH. unfold count. by rewrite IH.
Qed.

Lemma count_Merge (r nr : gmap string Z) k :
  count (DefaultReport_Merge r nr) k =
    match nr !! k with
    | Some v => wrap64 (count r k + v)
    | None => count r k
    end.
Proof. unfold count at 1. rewrite lookup_Merge. by destruct (nr !! k). Qed.

Lemma Merge_empty_r (r : gmap string Z) : DefaultReport_Merge r ∅ = r.
Proof. unfold DefaultReport_Merge. apply map_fold_empty. Qed.

Lemma Merge_bump (a b : gmap string Z) k v :
  DefaultReport_Merge a (bump k v b) = bump k v (DefaultReport_Merge a b).
Proof.
  apply map_eq. intros k'.
  rewrite lookup_Merge, !lookup_bump, count_Merge, lookup_Merge.
  case_decide; simplify_eq; [|done].
  rewrite wrap64_add_r.
  destruct (b !! k') as [vb|] eqn:Hb.
  - rewrite wrap64_add_l, (count_Some b k' vb) by done. do 2 f_equal. lia.
  - rewrite (count_None b k') by done. do 2 f_equal.
Qed.

Lemma Merge_assoc (a b c : gmap string Z) :
  DefaultReport_Merge (DefaultReport_Merge a b) c =
  DefaultReport_Merge a (DefaultReport_Merge b c).
Proof.
  apply map_eq. intros k. rewrite !lookup_Merge, count_Merge.
  destruct (c !! k) as [vc|]; [|done].
  rewrite wrap64_add_r.
  destruct (b !! k) as [vb|] eqn:Hb.
  - rewrite wrap64_add_l, (count_Some b k vb) by done. do 2 f_equal. lia.
  - rewrite (count_None b k) by done. do 2 f_equal.
Qed.

Lemma int64_map_count m k : int64_map m -> int64_min <= count m k <= int64_max.
Proof.
  intros Hm. unfold count. destruct (m !! k) as [v|] eqn:Hk; simpl.
  - by apply (Hm k v).
  - unfold int64_min, int64_max. lia.
Qed.

Lemma count_Merge_add (a b : gmap string Z) k :
  int64_map a ->
  count (DefaultReport_Merge a b) k = wrap64 (count a k + count b k).
Proof.
  intros Ha. rewrite count_Merge.
  destruct (b !! k) as [vb|] eqn:Hb.
  - by rewrite (count_Some b k vb).
  - rewrite (count_None b k), Z.add_0_r, wrap64_id; [done| |done].
    by apply int64_map_count.
Qed.

(** ** Sequences of [Add] *)

Lemma res_bind_assoc {A B C} (r : Res A) (f : A -> Res B) (g : B -> Res C) :
  res_bind (res_bind r f) g = res_bind r (fun a => res_bind (f a) g).
Proof. by destruct r. Qed.

Lemma res_bind_ext {A B} (r : Res A) (f g : A -> Res B) :
  (forall a, f a = g a) -> res_bind r f = res_bind r g.
Proof. intros Hfg. destruct r; simpl; auto. Qed.

Lemma Add_keys qr rec qr' :
  QuickReport_Add qr rec = Ok qr' -> keys qr' = keys qr.
Proof.
  destruct rec as [r|]; simpl; [|by intros [= <-]].
  destruct (build_key r 0 (keys qr) ""); simpl; [|done..]. by intros [= <-].
Qed.

Lemma add_all_keys recs : forall qr qr',
  add_all qr recs = Ok qr' -> keys qr' = keys qr.
Proof.
  induction recs as [|rec recs IH]; intros qr qr'; simpl.
  - by intros [= <-].
  - destruct (QuickReport_Add qr rec) as [q| |] eqn:Hadd; simpl; [|done..].
    intros Hrest. rewrite (IH _ _ Hrest). by eapply Add_keys.
Qed.

Lemma add_all_app l1 l2 : forall qr,
  add_all qr (l1 ++ l2) = res_bind (add_all qr l1) (fun q => add_all q l2).
Proof.
  induction l1 as [|x l1 IH]; intros qr; simpl; [done|].
  rewrite res_bind_assoc. apply res_bind_ext. intros q. apply IH.
Qed.

Lemma build_key_terminates r ks : forall i key, build_key r i ks key <> OutOfFuel.
Proof.
  induction ks as [|k ks IH]; intros i key; simpl; [done|].
  destruct (Z.of_nat (length r) <=? k); [apply IH|].
  unfold index. destruct (k <? 0); [done|].
  destruct (r !! Z.to_nat k); [apply IH|done].
Qed.

(** Two [Add]s commute, panics included: whether [Add] panics depends on
    the record and on [keys] only. *)
Lemma Add_swap qr x y :
  res_bind (QuickReport_Add qr x) (fun q => QuickReport_Add q y) =
  res_bind (QuickReport_Add qr y) (fun q => QuickReport_Add q x).
Proof.
  destruct x as [rx|], y as [ry|]; simpl; try done.
  - pose proof (build_key_terminates rx (keys qr) 0 "") as Tx.
    pose proof (build_key_terminates ry (keys qr) 0 "") as Ty.
    destruct (build_key rx 0 (keys qr) "") as [kx| |] eqn:Hx;
      destruct (build_key ry 0 (keys qr) "") as [ky| |] eqn:Hy;
      simpl; rewrite ?Hx, ?Hy; simpl; try done.
    by rewrite bump_comm.
  - by destruct (build_key rx 0 (keys qr) "").
  - by destruct (build_key ry 0 (keys qr) "").
Qed.

Lemma add_all_perm l l' :
  l ≡ₚ l' -> forall qr, add_all qr l = add_all qr l'.
Proof.
  induction 1 as [|x l l' _ IH|x y l|l1 l2 l3 _ IH1 _ IH2]; intros qr; simpl.
  - done.
  - apply res_bind_ext. intros q. apply IH.
  - rewrite <- !res_bind_assoc. by rewrite Add_swap.
  - by rewrite IH1, IH2.
Qed.

Lemma Merge_Add a b rec b' :
  keys a = keys b ->
  QuickReport_Add b rec = Ok b' ->
  QuickReport_Add (QuickReport_Merge a b) rec = Ok (QuickReport_Merge a b').
Proof.
  intros Hk. destruct rec as [r|]; simpl; [|by intros [= <-]].
  rewrite Hk. destruct (build_key r 0 (keys b) "") as [key| |]; simpl; [|done..].
  intros [= <-]. unfold QuickReport_Merge; simpl. by rewrite Merge_bump, Hk.
Qed.

Lemma Merge_add_all recs : forall a b c,
  keys a = keys b ->
  add_all b recs = Ok c ->
  add_all (QuickReport_Merge a b) recs = Ok (QuickReport_Merge a c).
Proof.
  induction recs as [|rec recs IH]; intros a b c Hk; simpl.
  - by intros [= <-].
  - destruct (QuickReport_Add b rec) as [b'| |] eqn:Hadd; simpl; [|done..].
    intros Hrest. rewrite (Merge_Add _ _ _ _ Hk Hadd). simpl.
    apply IH; [|done]. by rewrite (Add_keys _ _ _ Hadd).
Qed.

Lemma Merge_New a : QuickReport_Merge a (NewQuickReport (keys a)) = a.
Proof. destruct a. unfold QuickReport_Merge. simpl. by rewrite Merge_empty_r. Qed.

(** A worker that starts from a report [a] and one that starts from an
    empty clone, merged into [a] afterwards, end up the same. *)
Lemma add_all_clone recs a c :
  add_all (NewQuickReport (keys a)) recs = Ok c ->
  add_all a recs = Ok (QuickReport_Merge a c).
Proof.
  intros Hc. rewrite <- (Merge_New a) at 1. by apply Merge_add_all.
Qed.

Lemma add_all_parts ks parts cs :
  Forall2 (fun p c => add_all (NewQuickReport ks) p = Ok c) parts cs ->
  forall start p0 m,
    keys start = ks ->
    add_all start p0 = Ok m ->
    add_all start (p0 ++ concat parts) = Ok (merge_clones m cs).
Proof.
  induction 1 as [|p c parts cs Hp _ IH]; intros start p0 m Hk Hm; simpl.
  - by rewrite app_nil_r.
  - rewrite app_assoc. apply IH; [done|].
    rewrite add_all_app, Hm. simpl. apply add_all_clone.
    by rewrite (add_all_keys _ _ _ Hm), Hk.
Qed.

(** ** Key construction *)

Lemma string_app_nil_r (s : string) : s +:+ "" = s.
Proof.
  induction s as [|c s IH]; [done|].
  change (String c (s +:+ "") = String c s). by rewrite IH.
Qed.

Lemma string_app_assoc (s1 s2 s3 : string) : (s1 +:+ s2) +:+ s3 = s1 +:+ s2 +:+ s3.
Proof.
  induction s1 as [|c s1 IH]; [done|].
  change (String c ((s1 +:+ s2) +:+ s3) = String c (s1 +:+ s2 +:+ s3)).
  by rewrite IH.
Qed.

Lemma index_field r k :
  0 <= k -> k < Z.of_nat (length r) -> index r k = Ok (field r k).
Proof.
  intros H0 Hlt. unfold index, field.
  destruct (Z.ltb_spec k 0); [lia|].
  destruct (r !! Z.to_nat k) eqn:Hr; [done|].
  apply lookup_ge_None in Hr. lia.
Qed.

Lemma field_short r k : Z.of_nat (length r) <= k -> field r k = "".
Proof.
  intros Hle. unfold field. rewrite (proj2 (lookup_ge_None r (Z.to_nat k))); [done|lia].
Qed.

Lemma build_key_join r ks : forall i key,
  Forall (fun k => 0 <= k) ks ->
  build_key r i ks key =
    Ok (key +:+ match ks with
                | [] => ""
                | _ => (if (0 <? i)%nat then "," else "") +:+ join_fields r ks
                end).
Proof.
  induction ks as [|k ks IH]; intros i key Hks; simpl.
  - by rewrite string_app_nil_r.
  - apply Forall_cons in Hks as [Hk Hks].
    assert (Hstep : build_key r (S i) ks
                      ((if (0 <? i)%nat then key +:+ "," else key) +:+ field r k)
                    = Ok (key +:+ (if (0 <? i)%nat then "," else "")
                              +:+ join_fields r (k :: ks))).
    { rewrite IH by done. f_equal. unfold join_fields.
      destruct ks as [|k' ks]; simpl.
      - rewrite string_app_nil_r. destruct (0 <? i)%nat; simpl;
          by rewrite ?string_app_assoc.
      - destruct (0 <? i)%nat; simpl; by rewrite ?string_app_assoc. }
    destruct (Z.leb_spec (Z.of_nat (length r)) k) as [Hle|Hlt].
    + rewrite <- Hstep. rewrite (field_short r k Hle). by rewrite string_app_nil_r.
    + rewrite index_field by done. simpl. exact Hstep.
Qed.

(** With non-negative indices [Add] never panics, and it counts the
    record under the comma-joined selected fields. *)
Lemma Add_join qr r :
  Forall (fun k => 0 <= k) (keys qr) ->
  QuickReport_Add qr (RecStrings r) =
    Ok {| result := bump (join_fields r (keys qr)) 1 (result qr); keys := keys qr |}.
Proof.
  intros Hks. simpl. rewrite build_key_join by done. simpl.
  destruct (keys qr); done.
Qed.

(** ** Merging tallies *)

(** C2.  Partition independence.  Let the records [all] be split, in any
    order, between the master's worker ([p0]) and any number of clones
    ([parts]), every worker counting its share from an empty report.
    Merging the clones' reports into the master's gives exactly the report
    a single worker builds from [all]: the same keys with the same counts.
    Moreover [Merge] is commutative per key on 64-bit tallies and
    associative. *)
Theorem partition_independence
    (ks : list Z) (p0 : list LogRecord) (parts : list (list LogRecord))
    (all : list LogRecord) (m : QuickReport) (cs : list QuickReport)
    (a b c : gmap string Z) (k : string) :
  all ≡ₚ p0 ++ concat parts ->
  add_all (NewQuickReport ks) p0 = Ok m ->
  Forall2 (fun p r => add_all (NewQuickReport ks) p = Ok r) parts cs ->
  int64_map a ->
  int64_map b ->
  add_all (NewQuickReport ks) all = Ok (merge_clones m cs)
  /\ count (DefaultReport_Merge a b) k = count (DefaultReport_Merge b a) k
  /\ DefaultReport_Merge (DefaultReport_Merge a b) c
     = DefaultReport_Merge a (DefaultReport_Merge b c).
Proof.
  intros Hperm Hm Hcs Ha Hb. split; [|split].
  - rewrite (add_all_perm _ _ Hperm). by eapply add_all_parts.
  - rewrite !count_Merge_add by done. f_equal. lia.
  - apply Merge_assoc.
Qed.

Lemma partition_independence_witness :
  let ra := RecStrings ["a"; "1"] in
  let rb := RecStrings ["b"; "2"] in
  let m := {| result := {[ "a" := 1 ]}; keys := [0] |} in
  let cs := [ {| result := {[ "b" := 1 ]}; keys := [0] |};
              {| result := {[ "a" := 1 ]}; keys := [0] |} ] in
  add_all (NewQuickReport [0]) [ra; ra; rb] = Ok (merge_clones m cs)
  /\ count (DefaultReport_Merge {[ "a" := 1 ]} {[ "a" := 2; "b" := 5 ]}) "a"
     = count (DefaultReport_Merge {[ "a" := 2; "b" := 5 ]} {[ "a" := 1 ]}) "a"
  /\ DefaultReport_Merge (DefaultReport_Merge {[ "a" := 1 ]} {[ "a" := 2; "b" := 5 ]})
       {[ "c" := 7 ]}
     = DefaultReport_Merge {[ "a" := 1 ]}
         (DefaultReport_Merge {[ "a" := 2; "b" := 5 ]} {[ "c" := 7 ]}).
Proof.
  intros ra rb m cs.
  apply (partition_independence [0] [ra] [[rb]; [ra]] [ra; ra; rb] m cs).
  - simpl. apply perm_skip, perm_swap.
  - vm_compute. reflexivity.
  - repeat constructor.
  - unfold int64_map. apply (bool_decide_unpack _). vm_compute. exact I.
  - unfold int64_map. apply (bool_decide_unpack _). vm_compute. exact I.
Defined.

(** C7.  [QuickReport.Add] counts a record under the selected fields
    joined with a comma (for non-negative indices), and the two sample
    runs of the specification give the stated accumulators. *)
Theorem key_construction (qr : QuickReport) (r : list string) :
  Forall (fun k => 0 <= k) (keys qr) ->
  QuickReport_Add qr (RecStrings r)
    = Ok {| result := bump (join_fields r (keys qr)) 1 (result qr);
            keys := keys qr |}
  /\ add_all (NewQuickReport [0])
       [RecStrings ["a"; "1"]; RecStrings ["a"; "2"]; RecStrings ["b"; "1"]]
     = Ok {| result := {[ "a" := 2; "b" := 1 ]}; keys := [0] |}
  /\ add_all (NewQuickReport [0; 1])
       [RecStrings ["a"; "x"]; RecStrings ["a"; "y"]]
     = Ok {| result := {[ "a,x" := 1; "a,y" := 1 ]}; keys := [0; 1] |}.
Proof.
  intros Hks. split; [by apply Add_join|]. split; vm_compute; reflexivity.
Qed.

Lemma key_construction_witness :
  Forall (fun k => 0 <= k) [0; 1]
  /\ QuickReport_Add (NewQuickReport [0; 1]) (RecStrings ["a"; "x"])
     = Ok {| result := {[ "a,x" := 1 ]}; keys := [0; 1] |}.
Proof.
  split; [repeat constructor; lia|].
  destruct (key_construction (NewQuickReport [0; 1]) ["a"; "x"]) as [Hadd _].
  - repeat constructor; lia.
  - rewrite Hadd. vm_compute. reflexivity.
Defined.

(** ** The record loop *)

(** After a decode error other than [io.EOF] the loop logs and then goes
    on exactly as after a successful read: there is no [continue]. *)
Lemma record_loop_decode_error {P} `{Parser P} fuel file (w : Worker P)
    n rec msg p' :
  Parser_NextRecord (parser w) = Ok ((n, rec, Some (Err msg)), p') ->
  record_loop (S fuel) file w
  = (log_Printf (LogParseFailed file (Err msg)) ;;
     w' <- count_record (set_parser w p') n rec ;;
     record_loop fuel file w').
Proof. intros Hnext. simpl. by rewrite Hnext. Qed.

(** C1.  A row that fails to decode is counted all the same: on a file
    with rows [a], (decode error), [b] the worker logs the failure, then
    feeds the nil record to the report, which tallies it under the empty
    key, and the record counter ends at 3. *)
Theorem decode_error_is_counted :
  bind (setup [0])
       (fun rm => Worker_Process (sample_fs one_bad_row) 10
                    (NewWorker 0 rm (NewCSVParser ",")) "log.csv")
       empty_world
  = Ok ((None,
         {| id := 0;
            stats := {| files := 1; bytes := 0; bytesCompressed := 10; records := 3 |};
            reportMgr := 0%nat;
            parser := {| comma := ","; reader := Some [] |} |}),
        {| w_reports := [ {| result := {[ "a" := 1; "" := 1; "b" := 1 ]};
                             keys := [0] |} ];
           w_mgrs := [ {| reports := [0%nat]; references := [] |} ];
           w_log := [ LogProcessing 0 "log.csv";
                      LogParseFailed "log.csv" (Err "parse error") ];
           w_out := [] |}).
Proof. vm_compute. reflexivity. Qed.

(** ** Configuration *)

(** C5.  When no key index survives the parsing of [-keys], [main]
    returns at line 259 or at line 285: nothing has been allocated or
    written, no worker exists, and the only log line is the file count. *)
Theorem no_keys_no_run (fs : FileSystem) (fl : Flags) (assign : nat -> nat)
    (fuel : nat) (w : World) :
  parse_keys (flag_keys fl) = [] ->
  main fs fl assign fuel w =
    match os_Stat fs (flag_in fl) with
    | inl _ => Ok (ExitStatFailed, w)
    | inr fi =>
        Ok (ExitNoKeys,
            add_log [LogFileCount (length (list_files fs (flag_in fl) fi))] w)
    end.
Proof.
  intros Hks. unfold main. destruct (os_Stat fs (flag_in fl)); [done|].
  by rewrite Hks.
Qed.

Lemma no_keys_no_run_witness :
  parse_keys "x,,1e3" = []
  /\ main (sample_fs one_bad_row) (sample_flags "," "x,,1e3") (fun i => i) 10 empty_world
     = Ok (ExitNoKeys, add_log [LogFileCount 1] empty_world).
Proof.
  split; [vm_compute; reflexivity|].
  rewrite (no_keys_no_run (sample_fs one_bad_row) (sample_flags "," "x,,1e3"));
    [reflexivity | vm_compute; reflexivity].
Defined.

(** C6.  [-keys=-1] is accepted by [strconv.Atoi], so the index [-1]
    reaches [QuickReport.Add], where [r[-1]] panics on every [[]string]
    record: the run dies on the first row. *)
Theorem negative_key_panics :
  parse_keys "-1" = [-1]
  /\ QuickReport_Add (NewQuickReport (parse_keys "-1")) (RecStrings ["a"; "b"]) = Panic
  /\ main (sample_fs [(["a"; "b"], None)]) (sample_flags "," "-1") (fun i => i) 10
       empty_world = Panic.
Proof. repeat split; vm_compute; reflexivity. Qed.

(** ** Files that cannot be read *)

Section FileFailure.
Context {P : Type} `{Parser P}.
Variable fs : FileSystem.

Lemma Process_file_fails fuel (w : Worker P) file err world :
  file_fails fs file err ->
  Worker_Process fs fuel w file world
    = Ok ((Some err, w), add_log [LogProcessing (id w) file] world).
Proof.
  intros [Hstat|[(fi & Hstat & Hopen)|(fi & fp & Hstat & Hopen & Hgz & Hinit)]];
    unfold Worker_Process, bind; simpl; rewrite Hstat; try done;
    rewrite Hopen; try done.
  unfold select_reader. by rewrite Hgz, Hinit.
Qed.

(** C8.  A file that cannot be stat'ed, opened or set up for gzip
    decoding makes [Process] return the error with the worker (its four
    counters and its parser) and every report and manager untouched;
    [Run] logs the failure and goes on with the tasks that follow. *)
Theorem unreadable_file_skipped fuel (w : Worker P) file err tasks world :
  file_fails fs file err ->
  file <> "" ->
  Worker_Process fs fuel w file world
    = Ok ((Some err, w), add_log [LogProcessing (id w) file] world)
  /\ Worker_Run fs fuel w (file :: tasks) world
     = Worker_Run fs fuel w tasks
         (add_log [LogProcessing (id w) file; LogProcessFailed file err] world).
Proof.
  intros Hfail Hne. split; [by apply Process_file_fails|].
  simpl. destruct (String.eqb_spec file "") as [->|_]; [done|].
  unfold bind at 1. rewrite (Process_file_fails _ _ _ _ _ Hfail). simpl.
  unfold bind at 1. simpl. f_equal.
  unfold add_log; simpl. by rewrite <- app_assoc.
Qed.
End FileFailure.

Lemma unreadable_file_skipped_witness :
  let w := NewWorker 3 0%nat (NewCSVParser ",") in
  Worker_Process no_fs 10 w "a.log" empty_world
    = Ok ((Some (Err "no such file or directory"), w),
          add_log [LogProcessing 3 "a.log"] empty_world)
  /\ Worker_Run no_fs 10 w ["a.log"; ""] empty_world
     = Ok ((true, w),
           add_log [LogProcessing 3 "a.log";
                    LogProcessFailed "a.log" (Err "no such file or directory")]
             empty_world).
Proof.
  intros w.
  destruct (unreadable_file_skipped no_fs 10 w "a.log"
              (Err "no such file or directory") [""] empty_world) as [HP HR].
  - left. reflexivity.
  - discriminate.
  - split; [exact HP|]. rewrite HR. reflexivity.
Defined.

(** ** The monad *)

Lemma bind_Ok {A B} (m : M A) (f : A -> M B) w r :
  bind m f w = Ok r -> exists a w', m w = Ok (a, w') /\ f a w' = Ok r.
Proof.
  unfold bind. destruct (m w) as [[a w']| |]; [|done..]. eauto.
Qed.

Lemma ret_Ok {A} (a b : A) w w' : ret a w = Ok (b, w') -> a = b /\ w = w'.
Proof. by intros [= -> ->]. Qed.

(** ** The byte counter under the CSV parser *)

Section Bytes.
Variable fs : FileSystem.

Lemma count_record_stats {P} (w : Worker P) n rec world w1 world1 :
  count_record w n rec world = Ok (w1, world1) ->
  bytes (stats w1) = wrap64 (bytes (stats w) + n)
  /\ records (stats w1) = wrap64 (records (stats w) + 1).
Proof.
  unfold count_record. intros (? & ? & _ & Hret)%bind_Ok.
  apply ret_Ok in Hret as [<- _]. done.
Qed.

Lemma CSV_NextRecord_bytes lp n rec err lp' :
  CSVParser_NextRecord lp = Ok ((n, rec, err), lp') -> n = 0.
Proof.
  unfold CSVParser_NextRecord. destruct (reader lp); [|done].
  destruct (csv_Read _) as [[row e] rd1]. by intros [= <- _ _ _].
Qed.

Lemma record_loop_bytes fuel file : forall (w : Worker CSVParser) world w' world',
  bytes (stats w) = 0 ->
  record_loop fuel file w world = Ok (w', world') ->
  bytes (stats w') = 0.
Proof.
  induction fuel as [|fuel IH]; intros w world w' world' Hb; simpl; [done|].
  destruct (CSVParser_NextRecord (parser w)) as [[[[n rec] err] lp']| |] eqn:Hnext;
    [|done..].
  apply CSV_NextRecord_bytes in Hnext as ->.
  assert (Hstep : forall wd wd',
    bind (count_record (set_parser w lp') 0 rec) (record_loop fuel file) wd
      = Ok (w', wd') -> bytes (stats w') = 0).
  { intros wd wd' (w1 & wd1 & Hcount & Hloop)%bind_Ok.
    apply count_record_stats in Hcount as [Hb1 _].
    eapply IH; [|done]. rewrite Hb1. simpl. by rewrite Hb. }
  destruct err as [e|]; [|by apply Hstep].
  destruct (is_EOF e).
  - intros [<- _]%ret_Ok. done.
  - intros (? & ? & _ & Hrest)%bind_Ok. by eapply Hstep.
Qed.

Lemma Process_bytes fuel (w : Worker CSVParser) file world r world' :
  bytes (stats w) = 0 ->
  Worker_Process fs fuel w file world = Ok (r, world') ->
  bytes (stats (snd r)) = 0.
Proof.
  intros Hb. unfold Worker_Process. intros (? & world1 & _ & Hrest)%bind_Ok.
  destruct (os_Stat fs file); [by apply ret_Ok in Hrest as [<- _]|].
  destruct (os_Open fs file); [by apply ret_Ok in Hrest as [<- _]|].
  destruct (select_reader fs file _); [by apply ret_Ok in Hrest as [<- _]|].
  apply bind_Ok in Hrest as (w1 & world2 & Hloop & Hret).
  apply ret_Ok in Hret as [<- _]. simpl.
  by eapply record_loop_bytes; [|done].
Qed.

Lemma Run_bytes fuel tasks : forall (w : Worker CSVParser) world r world',
  bytes (stats w) = 0 ->
  Worker_Run fs fuel w tasks world = Ok (r, world') ->
  bytes (stats (snd r)) = 0.
Proof.
  induction tasks as [|file tasks IH]; intros w world r world' Hb; simpl.
  - by intros [<- _]%ret_Ok.
  - destruct (String.eqb file ""); [by intros [<- _]%ret_Ok|].
    intros (r1 & world1 & Hproc & Hrest)%bind_Ok.
    apply bind_Ok in Hrest as (? & world2 & _ & Hrun).
    eapply IH; [|done]. by eapply Process_bytes.
Qed.

Lemma clone_workers_bytes rm p n : forall i world ws world',
  clone_workers rm p i n world = Ok (ws, world') ->
  Forall (fun w => bytes (stats w) = 0) ws.
Proof.
  induction n as [|n IH]; intros i world ws world'; simpl.
  - by intros [<- _]%ret_Ok.
  - intros (nrm & world1 & _ & Hrest)%bind_Ok.
    apply bind_Ok in Hrest as (ws1 & world2 & Hws & Hret).
    apply ret_Ok in Hret as [<- _]. constructor; [done|]. by eapply IH.
Qed.

Lemma run_workers_bytes fuel assign n fls ws : forall j world ws' world',
  Forall (fun w => bytes (stats w) = 0) ws ->
  run_workers fs fuel assign n j fls ws world = Ok (ws', world') ->
  Forall (fun w => bytes (stats w) = 0) ws'.
Proof.
  induction ws as [|w ws IH]; intros j world ws' world' Hall; simpl.
  - by intros [<- _]%ret_Ok.
  - apply Forall_cons in Hall as [Hw Hall].
    intros (r & world1 & Hrun & Hrest)%bind_Ok.
    apply bind_Ok in Hrest as (rest & world2 & Hrest & Hret).
    apply ret_Ok in Hret as [<- _]. constructor.
    + by eapply Run_bytes.
    + by eapply IH.
Qed.

Lemma merge_stats_bytes ws : forall j master world total world',
  bytes master = 0 ->
  Forall (fun w => bytes (stats w) = 0) ws ->
  merge_stats j master ws world = Ok (total, world') ->
  bytes total = 0.
Proof.
  induction ws as [|w ws IH]; intros j master world total world' Hm Hall; simpl.
  - by intros [<- _]%ret_Ok.
  - apply Forall_cons in Hall as [Hw Hall].
    intros (? & world1 & _ & Hrest)%bind_Ok.
    eapply IH; [|done|done].
    destruct (Nat.eqb j 0); [done|]. simpl. by rewrite Hm, Hw.
Qed.

(** C9.  With [CSVParser] the [bytes] counter never leaves 0: a worker
    whose counter is 0 still has 0 after [Run], whatever it was given to
    read, and after a complete run of [main] every worker's counter and
    the merged total are 0. *)
Theorem csv_bytes_stay_zero (fl : Flags) (assign : nat -> nat) (fuel : nat)
    (w : Worker CSVParser) (tasks : list string)
    (world world1 world0 world2 : World)
    (r : bool * Worker CSVParser)
    (workers : list (Worker CSVParser)) (total : WorkerStats) :
  bytes (stats w) = 0 ->
  Worker_Run fs fuel w tasks world = Ok (r, world1) ->
  main fs fl assign fuel world0 = Ok (ExitDone workers total, world2) ->
  bytes (stats (snd r)) = 0
  /\ Forall (fun w' => bytes (stats w') = 0) workers
  /\ bytes total = 0.
Proof.
  intros Hb Hrun Hmain. split; [by eapply Run_bytes|].
  unfold main in Hmain. destruct (os_Stat fs (flag_in fl)) as [|fi]; [done|].
  apply bind_Ok in Hmain as (? & wd1 & _ & Hmain).
  case_bool_decide; [done|].
  apply bind_Ok in Hmain as (p & wd2 & _ & Hmain).
  apply bind_Ok in Hmain as (rm & wd3 & _ & Hmain).
  destruct (flag_procs fl <=? 0); [done|].
  apply bind_Ok in Hmain as (clones & wd4 & Hclones & Hmain).
  apply bind_Ok in Hmain as (? & wd5 & _ & Hmain).
  apply bind_Ok in Hmain as (ws' & wd6 & Hws & Hmain).
  apply bind_Ok in Hmain as (tot & wd7 & Htot & Hmain).
  apply bind_Ok in Hmain as (? & wd8 & _ & Hmain).
  apply bind_Ok in Hmain as (? & wd9 & _ & Hmain).
  apply bind_Ok in Hmain as (? & wd10 & _ & Hmain).
  apply ret_Ok in Hmain as [[= <- <-] _].
  assert (Hall : Forall (fun w' => bytes (stats w') = 0) ws').
  { eapply run_workers_bytes; [|done]. constructor; [done|].
    by eapply clone_workers_bytes. }
  split; [done|]. eapply merge_stats_bytes; [|done|done].
  destruct Hall; done.
Qed.
End Bytes.

Lemma csv_bytes_stay_zero_witness :
  match Worker_Run (sample_fs one_bad_row) 10 (NewWorker 1 0%nat (NewCSVParser ","))
          ["a.log"; ""] one_report_world,
        main (sample_fs one_bad_row) (sample_flags "," "0") (fun i => i) 10 empty_world
  with
  | Ok (r, _), Ok (ExitDone workers total, _) =>
      records (stats (snd r)) = 3
      /\ bytes (stats (snd r)) = 0
      /\ Forall (fun w' => bytes (stats w') = 0) workers
      /\ bytes total = 0
  | _, _ => False
  end.
Proof.
  destruct (Worker_Run _ _ _ _ one_report_world) as [[r world1]| |] eqn:Hrun;
    [|vm_compute in Hrun; discriminate..].
  destruct (main _ _ _ _ empty_world) as [[[| |workers total] world2]| |] eqn:Hmain;
    try (vm_compute in Hmain; discriminate).
  split.
  - vm_compute in Hrun. by injection Hrun as <- _.
  - eapply (csv_bytes_stay_zero (sample_fs one_bad_row) (sample_flags "," "0")
              (fun i => i) 10 (NewWorker 1 0%nat (NewCSVParser ",")) ["a.log"; ""]);
      [reflexivity | exact Hrun | exact Hmain].
Defined.

(** ** Clone *)

Lemma fresh_reports_app h q rs :
  Forall (fun r => (r < length h)%nat) rs ->
  fresh_reports (h ++ q) rs = fresh_reports h rs.
Proof.
  unfold fresh_reports. induction 1 as [|r rs Hr _ IH]; [done|].
  rewrite !fmap_cons, IH. by rewrite lookup_app_l.
Qed.

Lemma new_reports_spec rs : forall world,
  Forall (fun r => (r < length (w_reports world))%nat) rs ->
  new_reports rs world
    = Ok (seq (length (w_reports world)) (length rs),
          set_reports world (w_reports world ++ fresh_reports (w_reports world) rs)).
Proof.
  induction rs as [|r rs IH]; intros world Hrs; simpl.
  - unfold ret, set_reports, fresh_reports. simpl. rewrite app_nil_r. by destruct world.
  - apply Forall_cons in Hrs as [Hr Hrs].
    destruct (lookup_lt_is_Some_2 _ _ Hr) as [qr Hqr].
    unfold bind at 1. unfold Report_New, bind at 1, load_report. rewrite Hqr.
    unfold alloc_report. unfold bind at 1.
    rewrite IH; simpl.
    + unfold ret. simpl. f_equal. f_equal.
      * by rewrite length_app, Nat.add_1_r.
      * unfold set_reports. simpl. f_equal.
        rewrite fresh_reports_app by done.
        by rewrite <- app_assoc.
    + eapply Forall_impl; [done|]. simpl. intros x Hx. rewrite length_app. lia.
Qed.

Lemma Clone_spec rm world m :
  w_mgrs world !! rm = Some m ->
  Forall (fun r => (r < length (w_reports world))%nat) (reports m) ->
  Clone rm world
    = Ok (length (w_mgrs world),
          {| w_reports := w_reports world ++ fresh_reports (w_reports world) (reports m);
             w_mgrs :=
               <[rm := {| reports := reports m;
                          references := references m ++ [length (w_mgrs world)] |}]>
                 (w_mgrs world
                    ++ [ {| reports := seq (length (w_reports world))
                                           (length (reports m));
                            references := [] |} ]);
             w_log := w_log world;
             w_out := w_out world |}).
Proof.
  intros Hm Hrs. unfold Clone.
  unfold bind at 1. unfold load_mgr at 1. rewrite Hm.
  unfold bind at 1. rewrite new_reports_spec by done.
  unfold bind at 1. unfold alloc_mgr. simpl.
  unfold bind at 1. unfold load_mgr. simpl.
  rewrite (lookup_app_l_Some _ _ _ _ Hm). done.
Qed.

(** C3.  [Clone] on a manager whose reports are live objects returns a
    new manager with as many reports as the source, in the same order
    (report [i] of the clone is the [New()] of report [i] of the source:
    same key configuration), each a newly allocated object with no entry,
    whatever the source's reports contain.  The clone is appended to the
    source's [references]; nothing else changes. *)
Theorem clone_is_fresh_and_empty (rm : loc) (world : World) (m : ReportManager) :
  w_mgrs world !! rm = Some m ->
  Forall (fun r => (r < length (w_reports world))%nat) (reports m) ->
  exists nrm world' nm,
    Clone rm world = Ok (nrm, world')
    /\ w_mgrs world !! nrm = None
    /\ w_mgrs world' !! nrm = Some nm
    /\ references nm = []
    /\ length (reports nm) = length (reports m)
    /\ NoDup (reports nm)
    /\ (forall i r, reports m !! i = Some r ->
         exists r' qr,
           reports nm !! i = Some r'
           /\ w_reports world !! r = Some qr
           /\ w_reports world !! r' = None
           /\ w_reports world' !! r' = Some {| result := ∅; keys := keys qr |})
    /\ w_mgrs world' !! rm
       = Some {| reports := reports m; references := references m ++ [nrm] |}
    /\ (forall r qr, w_reports world !! r = Some qr ->
                     w_reports world' !! r = Some qr).
Proof.
  intros Hm Hrs. eexists _, _, _. split; [by apply Clone_spec|]. simpl.
  pose proof (lookup_lt_Some _ _ _ Hm) as Hlt.
  split; [by apply lookup_ge_None_2|].
  split.
  { rewrite list_lookup_insert_ne by lia. by apply list_lookup_middle. }
  split; [done|]. simpl.
  split; [apply length_seq|].
  split; [apply NoDup_seq|].
  split.
  { intros i r Hi. pose proof (lookup_lt_Some _ _ _ Hi) as Hilt.
    destruct (lookup_lt_is_Some_2 (w_reports world) r) as [qr Hqr].
    { by eapply (Forall_lookup_1 _ _ _ _ Hrs). }
    exists (length (w_reports world) + i)%nat, qr.
    split; [by apply lookup_seq_lt|]. split; [done|].
    split; [apply lookup_ge_None_2; lia|].
    rewrite lookup_app_r by lia.
    replace (length (w_reports world) + i - length (w_reports world))%nat
      with i by lia.
    unfold fresh_reports. rewrite list_lookup_fmap, Hi. simpl. by rewrite Hqr. }
  split.
  { apply list_lookup_insert_eq. rewrite length_app. lia. }
  intros r qr Hr. by apply lookup_app_l_Some.
Qed.

Lemma clone_is_fresh_and_empty_witness :
  let world :=
    {| w_reports := [ {| result := {[ "a" := 2; "b" := 1 ]}; keys := [0] |};
                      {| result := {[ "a,x" := 4 ]}; keys := [0; 1] |} ];
       w_mgrs := [ {| reports := [1%nat; 0%nat]; references := [] |} ];
       w_log := []; w_out := [] |} in
  exists nrm world' nm,
    Clone 0 world = Ok (nrm, world')
    /\ w_mgrs world' !! nrm = Some nm
    /\ length (reports nm) = 2%nat
    /\ (forall i r, [1%nat; 0%nat] !! i = Some r ->
          exists r' qr,
            reports nm !! i = Some r'
            /\ w_reports world !! r = Some qr
            /\ w_reports world !! r' = None
            /\ w_reports world' !! r' = Some {| result := ∅; keys := keys qr |}).
Proof.
  intros world.
  destruct (clone_is_fresh_and_empty 0 world
              {| reports := [1%nat; 0%nat]; references := [] |})
    as (nrm & world' & nm & HClone & _ & Hnm & _ & Hlen & _ & Hnew & _).
  - reflexivity.
  - repeat constructor.
  - exists nrm, world', nm. repeat split; assumption.
Defined.

(** ** Reduce *)

Lemma slot_functional ms nrm i x y : slot ms nrm i x -> slot ms nrm i y -> x = y.
Proof. intros (n & Hn & Hx) (n' & Hn' & Hy). congruence. Qed.

Lemma set_reports_id world : set_reports world (w_reports world) = world.
Proof. by destruct world. Qed.

Lemma mgr_report_Ok world nrm i x :
  slot (w_mgrs world) nrm i x -> mgr_report nrm i world = Ok (x, world).
Proof.
  intros (n & Hn & Hx). unfold mgr_report, bind, load_mgr. by rewrite Hn, Hx.
Qed.

Lemma Report_Merge_Ok world r x qr qx :
  w_reports world !! r = Some qr ->
  w_reports world !! x = Some qx ->
  Report_Merge r x world
    = Ok (tt, set_reports world (<[r := QuickReport_Merge qr qx]> (w_reports world))).
Proof. intros Hr Hx. unfold Report_Merge, bind, load_report. by rewrite Hx, Hr. Qed.

Lemma Report_Clear_Ok world x qx :
  w_reports world !! x = Some qx ->
  Report_Clear x world
    = Ok (tt, set_reports world (<[x := QuickReport_Clear qx]> (w_reports world))).
Proof. intros Hx. unfold Report_Clear, bind, load_report. by rewrite Hx. Qed.

Lemma Merge_empty_report qr qx : result qx = ∅ -> QuickReport_Merge qr qx = qr.
Proof.
  intros Hx. destruct qr. unfold QuickReport_Merge. simpl.
  by rewrite Hx, Merge_empty_r.
Qed.

Lemma Clear_empty_report qx : result qx = ∅ -> QuickReport_Clear qx = qx.
Proof. intros Hx. destruct qx. simpl in Hx. by subst. Qed.

Section Reduce.
Variable ms : list ReportManager.
Variable hl : nat.

Lemma merge_and_clear_spec world i r nrm x :
  stores_like ms hl world ->
  slot ms nrm i x -> (r < hl)%nat -> (x < hl)%nat -> x <> r ->
  exists world',
    merge_and_clear i r nrm world = Ok (tt, world')
    /\ stores_like ms hl world'
    /\ empty_at world' x
    /\ (forall y, y <> r -> empty_at world y -> empty_at world' y)
    /\ (empty_at world x -> world' = world).
Proof.
  intros [Hms Hhl] Hslot Hr Hx Hne.
  rewrite <- Hms in Hslot. rewrite <- Hhl in Hr, Hx.
  destruct (lookup_lt_is_Some_2 _ _ Hr) as [qr Hqr].
  destruct (lookup_lt_is_Some_2 _ _ Hx) as [qx Hqx].
  eexists. split.
  { unfold merge_and_clear. unfold bind at 1. rewrite (mgr_report_Ok _ _ _ _ Hslot).
    unfold bind at 1. rewrite (Report_Merge_Ok _ _ _ _ _ Hqr Hqx).
    unfold bind at 1. rewrite (mgr_report_Ok _ nrm i x) by exact Hslot.
    apply Report_Clear_Ok. simpl. by rewrite list_lookup_insert_ne. }
  split; [|split; [|split]].
  - split; [done|]. simpl. by rewrite !length_insert.
  - eexists. split; [simpl; apply list_lookup_insert_eq; by rewrite length_insert|].
    reflexivity.
  - intros y Hy (qy & Hqy & Hempty). unfold empty_at. simpl.
    destruct (decide (y = x)) as [->|Hyx].
    + eexists. split; [apply list_lookup_insert_eq; by rewrite length_insert|].
      reflexivity.
    + exists qy. split; [|done]. by rewrite !list_lookup_insert_ne.
  - intros (qx' & Hqx' & Hempty). assert (qx' = qx) as -> by congruence.
    rewrite (Merge_empty_report qr qx Hempty), (Clear_empty_report qx Hempty).
    unfold set_reports. simpl.
    rewrite (list_insert_id _ r qr Hqr), (list_insert_id _ x qx Hqx).
    by destruct world.
Qed.

Lemma inner_loop_spec i r refs : forall k world,
  stores_like ms hl world ->
  (r < hl)%nat ->
  Forall (fun nrm => exists x, slot ms nrm i x /\ (x < hl)%nat /\ x <> r) refs ->
  exists world',
    for_range k refs (fun _ nrm => merge_and_clear i r nrm) world = Ok (tt, world')
    /\ stores_like ms hl world'
    /\ (forall nrm x, nrm ∈ refs -> slot ms nrm i x -> empty_at world' x)
    /\ (forall y, y <> r -> empty_at world y -> empty_at world' y)
    /\ ((forall nrm x, nrm ∈ refs -> slot ms nrm i x -> empty_at world x) ->
        world' = world).
Proof.
  induction refs as [|nrm refs IH]; intros k world Hlike Hr Hrefs.
  - exists world. repeat split; try done; try apply Hlike.
    intros nrm x Hin. by apply elem_of_nil in Hin.
  - apply Forall_cons in Hrefs as [(x & Hslot & Hx & Hne) Hrefs].
    destruct (merge_and_clear_spec world i r nrm x Hlike Hslot Hr Hx Hne)
      as (world1 & Hstep & Hlike1 & Hempty1 & Hkeep1 & Hsame1).
    destruct (IH (S k) world1 Hlike1 Hr Hrefs)
      as (world' & Hloop & Hlike' & Hempty' & Hkeep' & Hsame').
    exists world'. split; [|split; [done|split; [|split]]].
    + simpl. unfold bind. by rewrite Hstep.
    + intros nrm' x' [->|Hin]%elem_of_cons Hslot'.
      * rewrite (slot_functional _ _ _ _ _ Hslot' Hslot). by apply Hkeep'.
      * by eapply Hempty'.
    + intros y Hy Hempty. by apply Hkeep', Hkeep1.
    + intros Hall. assert (world1 = world) as ->.
      { apply Hsame1. eapply Hall; [|done]. by left. }
      apply Hsame'. intros nrm' x' Hin. apply Hall. by right.
Qed.

Variable rm : loc.
Variable m : ReportManager.
Hypothesis Hm : ms !! rm = Some m.
Hypothesis Hlive : Forall (fun r => (r < hl)%nat) (reports m).
Hypothesis Hrefs :
  Forall (fun nrm =>
            forall i, (i < length (reports m))%nat ->
              exists x, slot ms nrm i x /\ (x < hl)%nat /\ x ∉ reports m)
         (references m).

Lemma clone_slot_outside nrm i x :
  nrm ∈ references m -> (i < length (reports m))%nat -> slot ms nrm i x ->
  x ∉ reports m.
Proof.
  intros Hin Hi Hslot.
  destruct (proj1 (Forall_forall _ _) Hrefs nrm Hin i Hi) as (x' & Hslot' & _ & Hout).
  by rewrite (slot_functional _ _ _ _ _ Hslot Hslot').
Qed.

Lemma merge_references_spec i r world :
  stores_like ms hl world ->
  reports m !! i = Some r ->
  exists world',
    merge_references rm i r world = Ok (tt, world')
    /\ stores_like ms hl world'
    /\ (forall nrm x, nrm ∈ references m -> slot ms nrm i x -> empty_at world' x)
    /\ (forall y, y <> r -> empty_at world y -> empty_at world' y)
    /\ ((forall nrm x, nrm ∈ references m -> slot ms nrm i x -> empty_at world x) ->
        world' = world).
Proof.
  intros Hlike Hi.
  assert (Hr : (r < hl)%nat) by (by eapply (Forall_lookup_1 _ _ _ _ Hlive)).
  destruct (inner_loop_spec i r (references m) 0 world Hlike Hr)
    as (world' & Hloop & Hrest).
  { eapply Forall_impl; [exact Hrefs|]. simpl. intros nrm Hnrm.
    destruct (Hnrm i) as (x & Hslot & Hx & Hout); [by eapply lookup_lt_Some|].
    exists x. split; [done|]. split; [done|].
    intros ->. apply Hout. by eapply list_elem_of_lookup_2. }
  exists world'. split; [|done].
  unfold merge_references, bind, load_mgr.
  destruct Hlike as [-> _]. by rewrite Hm.
Qed.

Lemma outer_loop_spec rs : forall i world,
  stores_like ms hl world ->
  (forall j r, rs !! j = Some r -> reports m !! (i + j)%nat = Some r) ->
  exists world',
    for_range i rs (fun i r => merge_references rm i r) world = Ok (tt, world')
    /\ stores_like ms hl world'
    /\ (forall nrm j x, nrm ∈ references m -> (i <= j < i + length rs)%nat ->
          slot ms nrm j x -> empty_at world' x)
    /\ (forall y, y ∉ reports m -> empty_at world y -> empty_at world' y)
    /\ ((forall nrm j x, nrm ∈ references m -> (i <= j < i + length rs)%nat ->
           slot ms nrm j x -> empty_at world x) ->
        world' = world).
Proof.
  induction rs as [|r rs IH]; intros i world Hlike Hseg.
  - exists world. repeat split; try done; try apply Hlike.
    simpl. intros nrm j x _ Hj. lia.
  - assert (Hi : reports m !! i = Some r).
    { rewrite <- (Nat.add_0_r i). by apply Hseg. }
    assert (Hin : r ∈ reports m) by (by eapply list_elem_of_lookup_2).
    destruct (merge_references_spec i r world Hlike Hi)
      as (world1 & Hstep & Hlike1 & Hempty1 & Hkeep1 & Hsame1).
    destruct (IH (S i) world1 Hlike1)
      as (world' & Hloop & Hlike' & Hempty' & Hkeep' & Hsame').
    { intros j r' Hj. replace (S i + j)%nat with (i + S j)%nat by lia.
      by apply Hseg. }
    exists world'. split; [|split; [done|split; [|split]]].
    + simpl. unfold bind. by rewrite Hstep.
    + intros nrm j x Hnrm Hj Hslot. simpl in Hj.
      destruct (decide (j = i)) as [->|Hji].
      * apply Hkeep'; [|by eapply Hempty1].
        eapply clone_slot_outside; [done| |done]. by eapply lookup_lt_Some.
      * eapply Hempty'; [done| |done]. lia.
    + intros y Hy Hempty. apply Hkeep'; [done|]. apply Hkeep1; [|done].
      intros ->. done.
    + intros Hall. simpl in Hall. assert (world1 = world) as ->.
      { apply Hsame1. intros nrm x Hnrm Hslot. eapply Hall; [done| |done]. lia. }
      apply Hsame'. intros nrm j x Hnrm Hj. apply Hall; [done|lia].
Qed.

Lemma Reduce_spec world :
  stores_like ms hl world ->
  exists world',
    Reduce rm world = Ok (tt, world')
    /\ stores_like ms hl world'
    /\ (forall nrm j x, nrm ∈ references m -> (j < length (reports m))%nat ->
          slot ms nrm j x -> empty_at world' x)
    /\ ((forall nrm j x, nrm ∈ references m -> (j < length (reports m))%nat ->
           slot ms nrm j x -> empty_at world x) ->
        world' = world).
Proof.
  intros Hlike.
  destruct (outer_loop_spec (reports m) 0 world Hlike)
    as (world' & Hloop & Hlike' & Hempty & _ & Hsame); [done|].
  exists world'. split; [|split; [done|split]].
  - unfold Reduce, bind, load_mgr. destruct Hlike as [-> _]. by rewrite Hm.
  - intros nrm j x Hnrm Hj. apply Hempty; [done|lia].
  - intros Hall. apply Hsame. intros nrm j x Hnrm Hj. apply Hall; [done|lia].
Qed.
End Reduce.

(** C4.  On a master whose clones are separate objects, [Reduce] runs to
    the end and leaves every clone report it merged empty; a second
    [Reduce] right after it therefore changes nothing: the master's
    accumulators (the whole world, in fact) are those of the first. *)
Theorem reduce_twice (rm : loc) (world : World) :
  reduce_ready world rm ->
  exists world1,
    Reduce rm world = Ok (tt, world1)
    /\ Reduce rm world1 = Ok (tt, world1)
    /\ w_mgrs world1 = w_mgrs world
    /\ (forall m nrm i x,
          w_mgrs world !! rm = Some m -> nrm ∈ references m ->
          (i < length (reports m))%nat -> slot (w_mgrs world) nrm i x ->
          empty_at world1 x).
Proof.
  intros (m & Hm & Hlive & Hrefs).
  destruct (Reduce_spec (w_mgrs world) (length (w_reports world)) rm m
              Hm Hlive Hrefs world) as (world1 & Hred & Hlike1 & Hempty & _);
    [done|].
  destruct (Reduce_spec (w_mgrs world) (length (w_reports world)) rm m
              Hm Hlive Hrefs world1 Hlike1) as (world2 & Hred2 & _ & _ & Hsame).
  exists world1. split; [done|]. split.
  - rewrite Hred2. by rewrite (Hsame Hempty).
  - split; [apply Hlike1|].
    intros m' nrm i x Hm' Hnrm Hi Hslot.
    assert (m' = m) as -> by congruence. by eapply Hempty.
Qed.

Lemma reduce_twice_witness :
  exists world1,
    Reduce 0 three_workers_world = Ok (tt, world1)
    /\ Reduce 0 world1 = Ok (tt, world1)
    /\ w_reports world1
       = [ {| result := {[ "a" := 3; "b" := 7 ]}; keys := [0] |};
           {| result := ∅; keys := [0] |};
           {| result := ∅; keys := [0] |} ].
Proof.
  destruct (reduce_twice 0 three_workers_world) as (world1 & Hone & Htwo & _).
  - exists {| reports := [0%nat]; references := [1%nat; 2%nat] |}.
    split; [reflexivity|]. split; [repeat constructor|].
    repeat constructor; simpl; intros i Hi; assert (i = 0%nat) as -> by lia.
    + exists 1%nat. split; [by eexists|]. split; [lia|].
      intros Hin%list_elem_of_singleton. lia.
    + exists 2%nat. split; [by eexists|]. split; [lia|].
      intros Hin%list_elem_of_singleton. lia.
  - exists world1. split; [exact Hone|]. split; [exact Htwo|].
    vm_compute in Hone. injection Hone as <-. vm_compute. reflexivity.
Defined.

(** ** Termination: with the CSV parser, fuel above the longest file is
    never used up *)

Lemma fuel_free_ret {A} (a : A) : fuel_free (ret a).
Proof. by intros w. Qed.

Lemma fuel_free_bind {A B} (m : M A) (f : A -> M B) :
  fuel_free m -> (forall a, fuel_free (f a)) -> fuel_free (bind m f).
Proof.
  intros Hm Hf w. unfold bind. specialize (Hm w).
  destruct (m w) as [[a w']| |]; [apply Hf|done..].
Qed.

Lemma fuel_free_for_range {A} (l : list A) (body : nat -> A -> M unit) :
  (forall i x, fuel_free (body i x)) -> forall i, fuel_free (for_range i l body).
Proof.
  intros Hbody. induction l as [|x l IH]; intros i; simpl.
  - apply fuel_free_ret.
  - apply fuel_free_bind; [apply Hbody|]. intros _. apply IH.
Qed.

Lemma fuel_free_load_report r : fuel_free (load_report r).
Proof. intros w. unfold load_report. by destruct (w_reports w !! r). Qed.

Lemma fuel_free_load_mgr rm : fuel_free (load_mgr rm).
Proof. intros w. unfold load_mgr. by destruct (w_mgrs w !! rm). Qed.

Lemma fuel_free_mgr_report nrm i : fuel_free (mgr_report nrm i).
Proof.
  apply fuel_free_bind; [apply fuel_free_load_mgr|]. intros n.
  by destruct (reports n !! i).
Qed.

Lemma Add_terminates qr rec : QuickReport_Add qr rec <> OutOfFuel.
Proof.
  destruct rec as [r|]; simpl; [|done].
  pose proof (build_key_terminates r (keys qr) 0 "").
  by destruct (build_key r 0 (keys qr) "").
Qed.

Lemma fuel_free_Report_Add r rec : fuel_free (Report_Add r rec).
Proof.
  apply fuel_free_bind; [apply fuel_free_load_report|]. intros qr.
  apply fuel_free_bind; [|done].
  intros w. unfold lift. pose proof (Add_terminates qr rec).
  by destruct (QuickReport_Add qr rec).
Qed.

Lemma fuel_free_ProcessRecord rm rec : fuel_free (ProcessRecord rm rec).
Proof.
  apply fuel_free_bind; [apply fuel_free_load_mgr|]. intros m.
  apply fuel_free_for_range. intros _ r. apply fuel_free_Report_Add.
Qed.

Lemma fuel_free_new_reports rs : fuel_free (new_reports rs).
Proof.
  induction rs as [|r rs IH]; simpl; [apply fuel_free_ret|].
  apply fuel_free_bind.
  - apply fuel_free_bind; [apply fuel_free_load_report|done].
  - intros n. apply fuel_free_bind; [done|]. intros ns. apply fuel_free_ret.
Qed.

Lemma fuel_free_Clone rm : fuel_free (Clone rm).
Proof.
  apply fuel_free_bind; [apply fuel_free_load_mgr|]. intros m.
  apply fuel_free_bind; [apply fuel_free_new_reports|]. intros nrs.
  apply fuel_free_bind; [done|]. intros nrm.
  apply fuel_free_bind; [apply fuel_free_load_mgr|]. intros m'.
  apply fuel_free_bind; done.
Qed.

Lemma fuel_free_Reduce rm : fuel_free (Reduce rm).
Proof.
  apply fuel_free_bind; [apply fuel_free_load_mgr|]. intros m.
  apply fuel_free_for_range. intros i r.
  apply fuel_free_bind; [apply fuel_free_load_mgr|]. intros m'.
  apply fuel_free_for_range. intros _ nrm.
  apply fuel_free_bind; [apply fuel_free_mgr_report|]. intros x.
  apply fuel_free_bind.
  { apply fuel_free_bind; [apply fuel_free_load_report|]. intros nqr.
    apply fuel_free_bind; [apply fuel_free_load_report|done]. }
  intros _. apply fuel_free_bind; [apply fuel_free_mgr_report|]. intros y.
  apply fuel_free_bind; [apply fuel_free_load_report|done].
Qed.

Lemma fuel_free_Output rm dir : fuel_free (Output rm dir).
Proof.
  apply fuel_free_bind; [apply fuel_free_load_mgr|]. intros m.
  apply fuel_free_for_range. intros _ r.
  apply fuel_free_bind; [apply fuel_free_load_report|done].
Qed.

Lemma fuel_free_setup ks : fuel_free (setup ks).
Proof.
  apply fuel_free_bind; [done|]. intros rm.
  apply fuel_free_bind; [done|]. intros rpt.
  apply fuel_free_bind; [|done].
  apply fuel_free_bind; [apply fuel_free_load_mgr|done].
Qed.

Lemma count_record_parser {P} (w : Worker P) n rec world w1 world1 :
  count_record w n rec world = Ok (w1, world1) -> parser w1 = parser w.
Proof.
  unfold count_record. intros (? & ? & _ & Hret)%bind_Ok.
  by apply ret_Ok in Hret as [<- _].
Qed.

Lemma fuel_free_count_record {P} (w : Worker P) n rec :
  fuel_free (count_record w n rec).
Proof. apply fuel_free_bind; [apply fuel_free_ProcessRecord|done]. Qed.

Lemma record_loop_terminates fuel file : forall (w : Worker CSVParser) rd,
  reader (parser w) = Some rd ->
  (length rd < fuel)%nat ->
  fuel_free (record_loop fuel file w).
Proof.
  induction fuel as [|fuel IH]; intros w rd Hrd Hlen world; [lia|]. simpl.
  unfold CSVParser_NextRecord. rewrite Hrd.
  assert (Hstep : forall rd' row, (length rd' < fuel)%nat ->
    fuel_free (bind (count_record
                       (set_parser w {| comma := comma (parser w); reader := Some rd' |})
                       0 row)
                    (record_loop fuel file))).
  { intros rd' row Hlen' wd. unfold bind.
    pose proof (fuel_free_count_record
                  (set_parser w {| comma := comma (parser w); reader := Some rd' |})
                  0 row wd) as Hfree.
    destruct (count_record _ 0 row wd) as [[w1 wd1]| |] eqn:Hcount; [|done..].
    apply count_record_parser in Hcount.
    eapply IH; [by rewrite Hcount|done]. }
  destruct rd as [|[row err] rd']; simpl; [done|].
  simpl in Hlen.
  destruct err as [e|].
  - destruct (is_EOF e); [done|].
    apply fuel_free_bind; [done|]. intros _. apply (Hstep rd'). lia.
  - apply (Hstep rd'). lia.
Qed.

Lemma Process_terminates fs fuel (w : Worker CSVParser) file :
  enough_fuel fs fuel -> fuel_free (Worker_Process fs fuel w file).
Proof.
  intros Hfuel. unfold Worker_Process.
  apply fuel_free_bind; [done|]. intros _.
  destruct (os_Stat fs file); [done|].
  destruct (os_Open fs file) as [|fp] eqn:Hopen; [done|].
  destruct (select_reader fs file fp) as [|zfp] eqn:Hsel; [done|].
  apply fuel_free_bind; [|done].
  eapply record_loop_terminates; [reflexivity|]. by eapply Hfuel.
Qed.

Lemma Run_terminates fs fuel tasks : forall (w : Worker CSVParser),
  enough_fuel fs fuel -> fuel_free (Worker_Run fs fuel w tasks).
Proof.
  induction tasks as [|file tasks IH]; intros w Hfuel; simpl; [done|].
  destruct (String.eqb file ""); [done|].
  apply fuel_free_bind; [by apply Process_terminates|]. intros r.
  apply fuel_free_bind; [by destruct (fst r)|]. intros _. by apply IH.
Qed.

Lemma fuel_free_clone_workers rm p n : forall i, fuel_free (clone_workers rm p i n).
Proof.
  induction n as [|n IH]; intros i; simpl; [done|].
  apply fuel_free_bind; [apply fuel_free_Clone|]. intros nrm.
  apply fuel_free_bind; [apply IH|done].
Qed.

Lemma fuel_free_log_progress n fls : forall i, fuel_free (log_progress i n fls).
Proof.
  induction fls as [|file fls IH]; intros i; simpl; [done|].
  apply fuel_free_bind; [done|]. intros _. apply IH.
Qed.

Lemma run_workers_terminates fs fuel assign n fls ws : forall j,
  enough_fuel fs fuel -> fuel_free (run_workers fs fuel assign n j fls ws).
Proof.
  induction ws as [|w ws IH]; intros j Hfuel; simpl; [done|].
  apply fuel_free_bind; [by apply Run_terminates|]. intros r.
  apply fuel_free_bind; [by apply IH|done].
Qed.

Lemma fuel_free_merge_stats ws : forall j master, fuel_free (merge_stats j master ws).
Proof.
  induction ws as [|w ws IH]; intros j master; simpl; [done|].
  apply fuel_free_bind; [done|]. intros _. apply IH.
Qed.

(** [main] with fuel above the longest input returns or panics. *)
Lemma main_terminates fs fl assign fuel :
  enough_fuel fs fuel -> fuel_free (main fs fl assign fuel).
Proof.
  intros Hfuel. unfold main. destruct (os_Stat fs (flag_in fl)); [done|].
  apply fuel_free_bind; [done|]. intros _.
  case_bool_decide; [done|].
  apply fuel_free_bind.
  { intros w. unfold lift, make_parser. by destruct (flag_comma fl). }
  intros p. apply fuel_free_bind; [apply fuel_free_setup|]. intros rm.
  destruct (flag_procs fl <=? 0); [done|].
  apply fuel_free_bind; [apply fuel_free_clone_workers|]. intros clones.
  apply fuel_free_bind; [apply fuel_free_log_progress|]. intros _.
  apply fuel_free_bind; [by apply run_workers_terminates|]. intros ws.
  apply fuel_free_bind; [apply fuel_free_merge_stats|]. intros total.
  apply fuel_free_bind; [apply fuel_free_Reduce|]. intros _.
  apply fuel_free_bind; [done|]. intros _.
  apply fuel_free_bind; [apply fuel_free_Output|done].
Qed.

(** ** The worlds [main] builds are ready for [Reduce] *)

Lemma ready_frame world world' rm :
  w_mgrs world' = w_mgrs world ->
  length (w_reports world') = length (w_reports world) ->
  reduce_ready world rm -> reduce_ready world' rm.
Proof.
  intros Hms Hlen (m & Hm & Hlive & Hrefs). exists m.
  rewrite Hms, Hlen. done.
Qed.

Lemma setup_ready ks world rm world' :
  setup ks world = Ok (rm, world') -> reduce_ready world' rm.
Proof.
  unfold setup, bind, NewReportManager, alloc_mgr, alloc_report, RegisterReport,
    bind, load_mgr. simpl.
  rewrite list_lookup_middle by done. simpl. intros [= <- <-].
  exists {| reports := [length (w_reports world)]; references := [] |}. simpl.
  split; [|split].
  - apply list_lookup_insert_eq. rewrite length_app. simpl. lia.
  - constructor; [|done]. rewrite length_app. simpl. lia.
  - done.
Qed.

Lemma Clone_ready rm world nrm world' :
  reduce_ready world rm ->
  Clone rm world = Ok (nrm, world') ->
  reduce_ready world' rm.
Proof.
  intros (m & Hm & Hlive & Hrefs). rewrite (Clone_spec rm world m Hm Hlive).
  intros [= <- <-].
  pose proof (lookup_lt_Some _ _ _ Hm) as Hrm.
  exists {| reports := reports m;
            references := references m ++ [length (w_mgrs world)] |}.
  simpl. split; [|split].
  - apply list_lookup_insert_eq. rewrite length_app. lia.
  - eapply Forall_impl; [exact Hlive|]. simpl. intros r Hr.
    rewrite length_app. lia.
  - apply Forall_app. split.
    + eapply Forall_impl; [exact Hrefs|]. simpl. intros nrm0 Hnrm0 i Hi.
      destruct (Hnrm0 i Hi) as (x & (n & Hn & Hx) & Hlt & Hout).
      exists x. split; [|split; [rewrite length_app; lia|done]].
      exists n. split; [|done].
      rewrite list_lookup_insert_ne.
      * by apply lookup_app_l_Some.
      * intros <-. apply Hout. assert (n = m) as -> by congruence.
        by eapply list_elem_of_lookup_2.
    + constructor; [|done]. intros i Hi.
      exists (length (w_reports world) + i)%nat. split; [|split].
      * eexists. split.
        -- rewrite list_lookup_insert_ne by lia. by apply list_lookup_middle.
        -- simpl. by apply lookup_seq_lt.
      * rewrite length_app. unfold fresh_reports. rewrite length_fmap. lia.
      * intros Hin. apply (proj1 (Forall_forall _ _) Hlive) in Hin. lia.
Qed.

Lemma Report_Add_frame r rec world world' :
  Report_Add r rec world = Ok (tt, world') ->
  w_mgrs world' = w_mgrs world
  /\ length (w_reports world') = length (w_reports world).
Proof.
  unfold Report_Add. intros (qr & w1 & Hload & Hrest)%bind_Ok.
  apply bind_Ok in Hrest as (qr' & w2 & Hadd & Hstore).
  unfold load_report in Hload. destruct (w_reports world !! r); [|done].
  injection Hload as -> <-.
  unfold lift in Hadd. destruct (QuickReport_Add qr rec); [|done..].
  injection Hadd as -> <-. injection Hstore as <-. simpl.
  by rewrite length_insert.
Qed.

Lemma ProcessRecord_frame rm rec world world' :
  ProcessRecord rm rec world = Ok (tt, world') ->
  w_mgrs world' = w_mgrs world
  /\ length (w_reports world') = length (w_reports world).
Proof.
  unfold ProcessRecord. intros (m & w1 & Hload & Hloop)%bind_Ok.
  unfold load_mgr in Hload. destruct (w_mgrs world !! rm); [|done].
  injection Hload as -> <-.
  revert world Hloop. generalize 0%nat.
  induction (reports m) as [|r rs IH]; intros i world; simpl.
  - by intros [= <-].
  - intros ([] & w1 & Hadd & Hrest)%bind_Ok.
    apply Report_Add_frame in Hadd as [Hms Hlen].
    apply IH in Hrest as [Hms' Hlen']. split; congruence.
Qed.

(** Counting records in the master or in a clone keeps the world ready. *)
Lemma ProcessRecord_ready rm rm' rec world world' :
  reduce_ready world rm ->
  ProcessRecord rm' rec world = Ok (tt, world') ->
  reduce_ready world' rm.
Proof.
  intros Hready [Hms Hlen]%ProcessRecord_frame. by eapply ready_frame.
Qed.

(** ** The separator *)










